(** * Orbit propagator and impact-effects estimator (app.py)

    A shallow embedding of the numerical engine of [app.py]:
    [_solve_keplers_equation], [kepler_to_cartesian] and
    [compute_impact_effects].

    Python's [float] is idealised as a real number ([R]): rounding,
    overflow, infinities and NaN are not modelled.  Everything else is kept
    as the interpreter does it: [/] raises [ZeroDivisionError] on a zero
    divisor, [math.sqrt] and [math.log10] raise [ValueError] outside their
    domain, [math.fmod] is the truncating remainder, a negative float raised
    to a fractional power is a [complex], [range(steps)] is empty for
    [steps <= 0]. *)

From Stdlib Require Import Reals Lra Lia ZArith List Psatz.
Import ListNotations.

Open Scope R_scope.

(** ** Python values and exceptions *)

Module Py.

Inductive exn : Set :=
| ZeroDivisionError
| ValueError.

Inductive result (A : Type) : Type :=
| Ok (a : A)
| Raise (e : exn).

Arguments Ok {A} a.
Arguments Raise {A} e.

Definition bind {A B : Type} (m : result A) (k : A -> result B) : result B :=
  match m with
  | Ok a => k a
  | Raise e => Raise e
  end.

Definition returns {A : Type} (m : result A) : Prop :=
  exists a, m = Ok a.

Definition raises {A : Type} (m : result A) : Prop :=
  exists e, m = Raise e.

(** The value of an arithmetic expression: a [float], or the [complex]
    that [**] produces from a negative base and a fractional exponent. *)
Inductive number : Type :=
| Float (r : R)
| Complex (re im : R).

Definition is_float (v : number) : Prop :=
  match v with
  | Float _ => True
  | Complex _ _ => False
  end.

(** [x / y] on floats. *)
Definition truediv (x y : R) : result R :=
  if Req_dec_T y 0 then Raise ZeroDivisionError else Ok (x / y).

(** [a / b] on ints: true division, the quotient is a float. *)
Definition int_truediv (a b : Z) : result R :=
  if Z.eq_dec b 0 then Raise ZeroDivisionError else Ok (IZR a / IZR b).

Definition math_sqrt (x : R) : result R :=
  if Rlt_dec x 0 then Raise ValueError else Ok (sqrt x).

Definition math_radians (x : R) : R := x * (PI / 180).

(** Rounding towards zero, as C's [fmod] uses it. *)
Definition trunc (x : R) : Z :=
  if Rle_dec 0 x then Int_part x else (- Int_part (- x))%Z.

(** [math.fmod(x, y)]: [x - n*y] for the integer [n = trunc (x/y)]; the
    result has the sign of [x]. *)
Definition math_fmod (x y : R) : result R :=
  if Req_dec_T y 0 then Raise ValueError
  else Ok (x - IZR (trunc (x / y)) * y).

(** [math.atan2(y, x)], signed zeros apart. *)
Definition math_atan2 (y x : R) : R :=
  if Rlt_dec 0 x then atan (y / x)
  else if Rlt_dec x 0 then
    (if Rle_dec 0 y then atan (y / x) + PI else atan (y / x) - PI)
  else if Rlt_dec 0 y then PI / 2
  else if Rlt_dec y 0 then - (PI / 2)
  else 0.

Definition math_log10 (x : R) : result R :=
  if Rle_dec x 0 then Raise ValueError else Ok (ln x / ln 10).

(** [x ** y] on floats.  A negative base with an exponent that is not an
    integer gives the complex [|x|^y * (cos (pi*y) + i sin (pi*y))]. *)
Definition float_pow (x y : R) : result number :=
  if Req_dec_T y 0 then Ok (Float 1)
  else if Req_dec_T x 0 then
    (if Rlt_dec y 0 then Raise ZeroDivisionError else Ok (Float 0))
  else if Rlt_dec 0 x then Ok (Float (Rpower x y))
  else if Req_dec_T (frac_part y) 0 then
    Ok (Float (Rpower (- x) y * cos (PI * y)))
  else
    Ok (Complex (Rpower (- x) y * cos (PI * y))
                (Rpower (- x) y * sin (PI * y))).

(** [c * v] and [v / c] for a float [c] and a float or complex [v]. *)
Definition float_mul (c : R) (v : number) : number :=
  match v with
  | Float r => Float (c * r)
  | Complex re im => Complex (c * re) (c * im)
  end.

Definition number_div (v : number) (c : R) : result number :=
  if Req_dec_T c 0 then Raise ZeroDivisionError
  else Ok (match v with
           | Float r => Float (r / c)
           | Complex re im => Complex (re / c) (im / c)
           end).

(** [range(n)]. *)
Definition range (n : Z) : list Z :=
  map Z.of_nat (seq 0 (Z.to_nat n)).

End Py.

Import Py.

Notation "x <- m ;; k" := (bind m (fun x => k))
  (at level 61, m at next level, right associativity).

(** ** The Kepler solver *)

Definition default_tol : R := 1e-10.

(** The body of the [for _ in range(50)] loop, [fuel] iterations left. *)
Fixpoint kepler_loop (fuel : nat) (e M tol E : R) : result R :=
  match fuel with
  | O => Ok E
  | S fuel' =>
      let f := E - e * sin E - M in
      let f_prime := 1 - e * cos E in
      delta <- truediv (- f) f_prime ;;
      let E := E + delta in
      if Rlt_dec (Rabs delta) tol then Ok E
      else kepler_loop fuel' e M tol E
  end.

Definition _solve_keplers_equation (e M tol : R) : result R :=
  kepler_loop 50 e M tol M.

(** The Newton-Raphson update of the loop body, as total real functions:
    [newton_delta] is [delta = -f / f_prime] and [newton_iter k E] is the
    value of [E] after [k] more updates. *)
Definition kepler_f (e M E : R) : R := E - e * sin E - M.

Definition kepler_f_prime (e E : R) : R := 1 - e * cos E.

Definition newton_delta (e M E : R) : R :=
  - kepler_f e M E / kepler_f_prime e E.

Definition newton_step (e M E : R) : R := E + newton_delta e M E.

Fixpoint newton_iter (e M : R) (k : nat) (E : R) : R :=
  match k with
  | O => E
  | S k' => newton_iter e M k' (newton_step e M E)
  end.



(** ** The orbit propagator *)

Record Position : Type := mkPosition { x : R; y : R; z : R }.

Definition default_mu : R := 1.32712440018e11.

Section Propagator.

(** The arguments of [kepler_to_cartesian]. *)
Variables (a e i_deg omega_deg w_deg M_deg mu : R).
Variables (steps : Z) (timespan_days : R).

Definition a_km : R := a * 1.496e8.

(** [n = math.sqrt(mu / (a_km**3))]. *)
Definition mean_motion : result R :=
  q <- truediv mu (a_km ^ 3) ;;
  math_sqrt q.

Definition dt_total : R := timespan_days * 24 * 3600.

(** [t = (j / (steps - 1)) * dt_total]. *)
Definition sample_time (j : Z) : result R :=
  q <- int_truediv j (steps - 1) ;;
  Ok (q * dt_total).

(** [M_t = math.fmod(M0 + n * t, 2 * math.pi)]: the value handed to the
    Kepler solver at elapsed time [t]. *)
Definition mean_anomaly_at (n t : R) : result R :=
  let M0 := math_radians M_deg in
  let M_t := M0 + n * t in
  math_fmod M_t (2 * PI).

(** The rest of the loop body: from the eccentric anomaly to the
    position in the ecliptic frame. *)
Definition position_of_anomaly (E : R) : result Position :=
  let i := math_radians i_deg in
  let omega := math_radians omega_deg in
  let w := math_radians w_deg in
  s1 <- math_sqrt (1 + e) ;;
  s2 <- math_sqrt (1 - e) ;;
  let nu := 2 * math_atan2 (s1 * sin (E / 2)) (s2 * cos (E / 2)) in
  let r := a_km * (1 - e * cos E) in
  let x_op := r * cos nu in
  let y_op := r * sin nu in
  let z_op := 0 in
  let cos_w := cos w in
  let sin_w := sin w in
  let x1 := cos_w * x_op - sin_w * y_op in
  let y1 := sin_w * x_op + cos_w * y_op in
  let z1 := z_op in
  let cos_i := cos i in
  let sin_i := sin i in
  let x2 := x1 in
  let y2 := cos_i * y1 - sin_i * z1 in
  let z2 := sin_i * y1 + cos_i * z1 in
  let cos_omega := cos omega in
  let sin_omega := sin omega in
  let x := cos_omega * x2 - sin_omega * y2 in
  let y := sin_omega * x2 + cos_omega * y2 in
  let z := z2 in
  Ok (mkPosition x y z).

(** The eccentric anomaly and the position at elapsed time [t]. *)
Definition eccentric_anomaly_at (n t : R) : result R :=
  M_t <- mean_anomaly_at n t ;;
  _solve_keplers_equation e M_t default_tol.

Definition position_at (n t : R) : result Position :=
  E <- eccentric_anomaly_at n t ;;
  position_of_anomaly E.

(** One turn of [for j in range(steps)]. *)
Definition orbit_sample (n : R) (j : Z) : result Position :=
  t <- sample_time j ;;
  position_at n t.

Fixpoint orbit_loop (n : R) (js : list Z) (positions : list Position)
  : result (list Position) :=
  match js with
  | [] => Ok positions
  | j :: js' =>
      p <- orbit_sample n j ;;
      orbit_loop n js' (positions ++ [p])
  end.

Definition kepler_to_cartesian : result (list Position) :=
  n <- mean_motion ;;
  orbit_loop n (range steps) [].

End Propagator.

(** ** The impact-effects estimator *)

Record ImpactEffects : Type := mkImpactEffects {
  kinetic_energy_joules : R;
  energy_megatons_tnt : R;
  crater_diameter_km : number;
  seismic_magnitude : R
}.

Definition default_crater_coeff : R := 1.0e-2.

Definition compute_impact_effects
    (diameter_m density velocity_m_per_s impact_angle_deg crater_coeff : R)
  : result ImpactEffects :=
  radius <- truediv diameter_m 2 ;;
  q <- truediv 4 3 ;;
  let volume := q * PI * radius ^ 3 in
  let mass := volume * density in
  let angle_rad := math_radians impact_angle_deg in
  let v_vertical := velocity_m_per_s * sin angle_rad in
  let kinetic_energy := 0.5 * mass * v_vertical ^ 2 in
  q1 <- truediv kinetic_energy 4.184e9 ;;
  energy_mt <- truediv q1 1e6 ;;
  p <- float_pow kinetic_energy 0.25 ;;
  crater_diameter_km <- number_div (float_mul crater_coeff p) 1000 ;;
  magnitude <-
    (if Rlt_dec 0 kinetic_energy then
       l <- math_log10 kinetic_energy ;;
       truediv (l - 4.8) 1.5
     else Ok 0) ;;
  Ok (mkImpactEffects kinetic_energy energy_mt crater_diameter_km magnitude).

(** The estimator as the specification words it (section 4.3), for
    comparison with [compute_impact_effects]. *)
Module SpecFormulas.

Definition radius (diameterMeters : R) : R := diameterMeters / 2.

Definition volume (diameterMeters : R) : R :=
  (4 / 3) * PI * radius diameterMeters ^ 3.

Definition mass (diameterMeters densityKgM3 : R) : R :=
  volume diameterMeters * densityKgM3.

Definition vVertical (velocityMetersPerSecond impactAngleDeg : R) : R :=
  velocityMetersPerSecond * sin (impactAngleDeg * PI / 180).

Definition kineticEnergyJoules (d rho v angle : R) : R :=
  0.5 * ((4 / 3) * PI * (d / 2) ^ 3 * rho) * (v * sin (angle * PI / 180)) ^ 2.

Definition energyMegatonsTnt (ke : R) : R := ke / 4.184e9 / 1e6.

(** [ke^0.25] on the non-negative reals. *)
Definition quarter_power (ke : R) : R := sqrt (sqrt ke).

Definition craterDiameterKm (craterCoefficient ke : R) : R :=
  craterCoefficient * quarter_power ke / 1000.

Definition seismicMagnitude (ke : R) : R :=
  if Rlt_dec 0 ke then (ln ke / ln 10 - 4.8) / 1.5 else 0.

End SpecFormulas.

(** ** Further definitions *)

(** The square of the distance of a position from the origin (the Sun). *)
Definition distance2 (p : Position) : R :=
  p.(x) ^ 2 + p.(y) ^ 2 + p.(z) ^ 2.

(** The part of [api_simulate] between the reading of the JSON payload and
    [jsonify]: the optional keys with their defaults, the propagation and
    then the impact estimate; an exception of either call is not caught.
    A key of the payload is [Some] number or absent ([None]);
    [payload.get(key, default)] is [payload_get].  The orbit is the
    [orbit_data] dictionary, already read. *)
Definition payload_get {A : Type} (value : option A) (default : A) : A :=
  match value with
  | Some v => v
  | None => default
  end.

Record SimulationPayload : Type := mkSimulationPayload {
  projectile_diameter_m : option R;
  projectile_density : option R;
  impact_velocity_km_s : option R;
  payload_impact_angle_deg : option R;
  simulation_steps : option R;
  payload_timespan_days : option R;
  crater_coefficient : option R
}.

Record OrbitData : Type := mkOrbitData {
  semi_major_axis_au : R;
  eccentricity : R;
  inclination_deg : R;
  ascending_node_longitude_deg : R;
  argument_of_periapsis_deg : R;
  mean_anomaly_deg : R
}.

Definition simulate (orbit_data : OrbitData) (payload : SimulationPayload)
  : result (list Position * ImpactEffects) :=
  let diameter_m := payload_get payload.(projectile_diameter_m) 10.0 in
  let density := payload_get payload.(projectile_density) 3000.0 in
  let impact_velocity_km_s := payload_get payload.(impact_velocity_km_s) 20.0 in
  let impact_velocity_m_s := impact_velocity_km_s * 1000.0 in
  let impact_angle_deg := payload_get payload.(payload_impact_angle_deg) 45.0 in
  positions <-
    kepler_to_cartesian
      orbit_data.(semi_major_axis_au)
      orbit_data.(eccentricity)
      orbit_data.(inclination_deg)
      orbit_data.(ascending_node_longitude_deg)
      orbit_data.(argument_of_periapsis_deg)
      orbit_data.(mean_anomaly_deg)
      default_mu
      (trunc (payload_get payload.(simulation_steps) 200))
      (payload_get payload.(payload_timespan_days) 365.25) ;;
  impact_results <-
    compute_impact_effects diameter_m density impact_velocity_m_s
      impact_angle_deg (payload_get payload.(crater_coefficient) 1.0e-2) ;;
  Ok (positions, impact_results).

(** ** meteorMadness.py *)

Module MeteorMadness.

(** [calculate_mass_kgs(d_min_km, d_max_km, density_kgm3=2000)]; none of
    its operations can raise. *)
Definition default_density_kgm3 : R := 2000.

Definition calculate_mass_kgs (d_min_km d_max_km density_kgm3 : R) : R :=
  let avg_d_km := (d_min_km + d_max_km) / 2 in
  let radius_m := (avg_d_km * 1000) / 2 in
  let volume := (4 / 3) * PI * radius_m ^ 3 in
  density_kgm3 * volume.

Definition J_PER_GRAM_TNT : R := 4184.0.

Definition kinetic_energy (m v : R) : R := 0.5 * m * v * v.

Definition tnt_equivalents (energy_j : R) : R :=
  energy_j / J_PER_GRAM_TNT / 1000000.

End MeteorMadness.

(** * Properties *)

(** ** Python's arithmetic *)

Lemma truediv_Ok (x y : R) : y <> 0 -> truediv x y = Ok (x / y).
Proof.
  intros Hy. unfold truediv. destruct (Req_dec_T y 0); [contradiction | reflexivity].
Qed.

Lemma truediv_zero (x : R) : truediv x 0 = Raise ZeroDivisionError.
Proof.
  unfold truediv. destruct (Req_dec_T 0 0) as [_ | H]; [reflexivity | now elim H].
Qed.

Lemma math_sqrt_Ok (x : R) : 0 <= x -> math_sqrt x = Ok (sqrt x).
Proof.
  intros Hx. unfold math_sqrt. destruct (Rlt_dec x 0); [lra | reflexivity].
Qed.

Lemma math_sqrt_neg (x : R) : x < 0 -> math_sqrt x = Raise ValueError.
Proof.
  intros Hx. unfold math_sqrt. destruct (Rlt_dec x 0); [reflexivity | lra].
Qed.

(** ** The Kepler solver *)

Lemma default_tol_pos : 0 < default_tol.
Proof. unfold default_tol. lra. Qed.

Lemma kepler_loop_S (fuel : nat) (e M tol E : R) :
  kepler_f_prime e E <> 0 ->
  kepler_loop (S fuel) e M tol E =
    if Rlt_dec (Rabs (newton_delta e M E)) tol
    then Ok (newton_step e M E)
    else kepler_loop fuel e M tol (newton_step e M E).
Proof.
  intros Hd. cbn [kepler_loop].
  fold (kepler_f e M E). fold (kepler_f_prime e E).
  rewrite (truediv_Ok _ _ Hd). cbn [bind].
  reflexivity.
Qed.

(** For an eccentricity in [[0,1)] the derivative [1 - e cos E] stays
    above [1 - e]. *)
Lemma kepler_f_prime_lower (e E : R) :
  0 <= e -> 1 - e <= kepler_f_prime e E.
Proof.
  intros He. unfold kepler_f_prime.
  pose proof (COS_bound E) as [_ Hc]. nra.
Qed.

Lemma kepler_f_prime_pos (e E : R) :
  -1 < e < 1 -> 0 < kepler_f_prime e E.
Proof.
  intros [He0 He1]. unfold kepler_f_prime.
  pose proof (COS_bound E) as [Hc0 Hc1].
  destruct (Rle_dec 0 e); nra.
Qed.

(** What the loop returns when no division fails: the iterate reached
    after [k] updates, [k] being the first update whose step is below the
    tolerance, or the whole budget. *)
Lemma kepler_loop_iter (e M tol : R) :
  (forall E, kepler_f_prime e E <> 0) ->
  forall (fuel : nat) (E : R),
  exists k : nat,
    (k <= fuel)%nat /\
    (0 < fuel -> 0 < k)%nat /\
    kepler_loop fuel e M tol E = Ok (newton_iter e M k E) /\
    (forall j : nat, (S j < k)%nat ->
       tol <= Rabs (newton_delta e M (newton_iter e M j E))) /\
    ((k < fuel)%nat ->
       Rabs (newton_delta e M (newton_iter e M (pred k) E)) < tol).
Proof.
  intros Hd fuel. induction fuel as [| fuel IH]; intros E.
  - exists 0%nat. split; [lia |]. split; [lia |]. split; [reflexivity |].
    split; [intros j Hj; lia | intros Hk; lia].
  - rewrite (kepler_loop_S _ _ _ _ _ (Hd E)).
    destruct (Rlt_dec (Rabs (newton_delta e M E)) tol) as [Hlt | Hge].
    + exists 1%nat. split; [lia |]. split; [lia |]. split; [reflexivity |].
      split; [intros j Hj; lia | intros _; exact Hlt].
    + destruct (IH (newton_step e M E))
        as (k & Hk & Hpos & Hres & Hbefore & Hlast).
      exists (S k). split; [lia |]. split; [lia |]. split; [exact Hres |].
      split.
      * intros [| j] Hj; cbn [newton_iter]; [lra | apply Hbefore; lia].
      * intros Hlt. destruct k as [| k']; [lia |].
        cbn [pred newton_iter]. apply Hlast. lia.
Qed.

Lemma kepler_loop_returns (e M tol : R) (fuel : nat) (E : R) :
  -1 < e < 1 -> returns (kepler_loop fuel e M tol E).
Proof.
  intros He.
  destruct (kepler_loop_iter e M tol) with (fuel := fuel) (E := E)
    as (k & _ & _ & Hres & _).
  - intros E'. pose proof (kepler_f_prime_pos e E' He). lra.
  - exists (newton_iter e M k E). exact Hres.
Qed.

(** C7: for an eccentricity in [[0,1)], any mean anomaly and the default
    tolerance, the solver returns after [k] Newton-Raphson updates with
    [1 <= k <= 50]: every update before the last moved [E] by at least the
    tolerance, the solver stops at the first update that moves it by less,
    and when all fifty updates are used it returns the fiftieth iterate
    rather than raising. *)
Theorem solve_keplers_equation_terminates (e M : R) :
  0 <= e < 1 ->
  exists k : nat,
    (1 <= k <= 50)%nat /\
    _solve_keplers_equation e M default_tol = Ok (newton_iter e M k M) /\
    (forall j : nat, (S j < k)%nat ->
       default_tol <= Rabs (newton_delta e M (newton_iter e M j M))) /\
    ((k < 50)%nat ->
       Rabs (newton_delta e M (newton_iter e M (pred k) M)) < default_tol) /\
    ((forall j : nat, (j < 50)%nat ->
        default_tol <= Rabs (newton_delta e M (newton_iter e M j M))) ->
     _solve_keplers_equation e M default_tol = Ok (newton_iter e M 50 M)).
Proof.
  intros He. unfold _solve_keplers_equation.
  destruct (kepler_loop_iter e M default_tol) with (fuel := 50%nat) (E := M)
    as (k & Hk & Hpos & Hres & Hbefore & Hlast).
  - intros E'. assert (He' : -1 < e < 1) by lra.
    pose proof (kepler_f_prime_pos e E' He'). lra.
  - exists k. split; [lia |]. split; [exact Hres |].
    split; [exact Hbefore |]. split; [exact Hlast |].
    intros Hall. rewrite Hres.
    destruct (Nat.eq_dec k 50) as [-> | Hne]; [reflexivity |].
    assert (Hk50 : (k < 50)%nat) by lia.
    specialize (Hlast Hk50). specialize (Hall (pred k)).
    assert (Hp : (pred k < 50)%nat) by lia. specialize (Hall Hp). lra.
Qed.

Lemma solve_keplers_equation_terminates_witness :
  0 <= 0 < 1 /\
  exists k : nat,
    (1 <= k <= 50)%nat /\
    _solve_keplers_equation 0 0 default_tol = Ok (newton_iter 0 0 k 0) /\
    (forall j : nat, (S j < k)%nat ->
       default_tol <= Rabs (newton_delta 0 0 (newton_iter 0 0 j 0))) /\
    ((k < 50)%nat ->
       Rabs (newton_delta 0 0 (newton_iter 0 0 (pred k) 0)) < default_tol) /\
    ((forall j : nat, (j < 50)%nat ->
        default_tol <= Rabs (newton_delta 0 0 (newton_iter 0 0 j 0))) ->
     _solve_keplers_equation 0 0 default_tol = Ok (newton_iter 0 0 50 0)).
Proof.
  split; [lra | apply (solve_keplers_equation_terminates 0 0); lra].
Defined.

(** C9: for an eccentricity in [[0,1)] the Newton-Raphson denominator
    [1 - e cos E] is at least [1 - e > 0] at every iterate, so the division
    of the update step never fails and the solver returns a value. *)
Theorem newton_denominator_positive (e M tol : R) :
  0 <= e < 1 ->
  (forall k : nat,
     0 < 1 - e <= kepler_f_prime e (newton_iter e M k M)) /\
  (forall k : nat,
     truediv (- kepler_f e M (newton_iter e M k M))
             (kepler_f_prime e (newton_iter e M k M))
     = Ok (newton_delta e M (newton_iter e M k M))) /\
  returns (_solve_keplers_equation e M tol).
Proof.
  intros He. split; [| split].
  - intros k. split; [lra | apply kepler_f_prime_lower; lra].
  - intros k. apply truediv_Ok.
    assert (He' : -1 < e < 1) by lra.
    pose proof (kepler_f_prime_pos e (newton_iter e M k M) He'). lra.
  - apply kepler_loop_returns. lra.
Qed.

Lemma newton_denominator_positive_witness :
  0 <= 1 / 2 < 1 /\
  (forall k : nat,
     0 < 1 - 1 / 2 <= kepler_f_prime (1 / 2) (newton_iter (1 / 2) 1 k 1)) /\
  (forall k : nat,
     truediv (- kepler_f (1 / 2) 1 (newton_iter (1 / 2) 1 k 1))
             (kepler_f_prime (1 / 2) (newton_iter (1 / 2) 1 k 1))
     = Ok (newton_delta (1 / 2) 1 (newton_iter (1 / 2) 1 k 1))) /\
  returns (_solve_keplers_equation (1 / 2) 1 default_tol).
Proof.
  split; [lra | apply (newton_denominator_positive (1 / 2) 1 default_tol); lra].
Defined.

Lemma newton_delta_circular (M : R) : newton_delta 0 M M = 0.
Proof.
  unfold newton_delta, kepler_f, kepler_f_prime. field; lra.
Qed.

Lemma solve_circular (M tol : R) :
  0 < tol -> _solve_keplers_equation 0 M tol = Ok M.
Proof.
  intros Htol. unfold _solve_keplers_equation.
  rewrite kepler_loop_S by (unfold kepler_f_prime; lra).
  unfold newton_step. rewrite newton_delta_circular, Rabs_R0.
  destruct (Rlt_dec 0 tol); [| contradiction].
  f_equal. lra.
Qed.

(** C8: with eccentricity 0 the first Newton-Raphson step is 0, so the
    solver returns [E = M] exactly after a single update, for every mean
    anomaly [M]; hence at every sample of a circular orbit the eccentric
    anomaly is the mean anomaly [M(t)]. *)
Theorem circular_orbit_fixed_point (M : R) :
  newton_delta 0 M M = 0 /\
  kepler_loop 1 0 M default_tol M = Ok M /\
  _solve_keplers_equation 0 M default_tol = Ok M /\
  (forall M_deg n t : R,
     eccentric_anomaly_at 0 M_deg n t = mean_anomaly_at M_deg n t).
Proof.
  split; [apply newton_delta_circular |]. split; [| split].
  - rewrite kepler_loop_S by (unfold kepler_f_prime; lra).
    unfold newton_step. rewrite newton_delta_circular, Rabs_R0.
    destruct (Rlt_dec 0 default_tol) as [_ | H];
      [f_equal; lra | elim H; apply default_tol_pos].
  - apply solve_circular, default_tol_pos.
  - intros M_deg n t. unfold eccentric_anomaly_at.
    destruct (mean_anomaly_at M_deg n t) as [m | err]; cbn [bind].
    + apply solve_circular, default_tol_pos.
    + reflexivity.
Qed.

(** ** Convergence of the Newton iteration *)













Lemma Rabs_sin_le (x : R) : Rabs (sin x) <= Rabs x.
Proof.
  assert (Hpos : forall y, 0 < y -> Rabs (sin y) <= y).
  { intros y Hy. pose proof (sin_lt_x y Hy) as Hlt.
    apply Rabs_le. split; [| lra].
    destruct (Rle_dec y PI) as [Hle | Hgt].
    - pose proof (sin_ge_0 y). lra.
    - pose proof (SIN_bound y). pose proof PI2_3_2. lra. }
  destruct (Rtotal_order x 0) as [Hneg | [-> | Hgt]].
  - rewrite <- (Rabs_Ropp (sin x)), <- sin_neg, (Rabs_left x Hneg).
    apply Hpos. lra.
  - rewrite sin_0. lra.
  - rewrite (Rabs_pos_eq x) by lra. now apply Hpos.
Qed.

Lemma sin_lipschitz (p q : R) : Rabs (sin p - sin q) <= Rabs (p - q).
Proof.
  rewrite form4, Rabs_mult, Rabs_mult.
  pose proof (COS_bound ((p + q) / 2)) as Hc.
  assert (Hc' : Rabs (cos ((p + q) / 2)) <= 1) by (apply Rabs_le; lra).
  pose proof (Rabs_sin_le ((p - q) / 2)) as Hs.
  pose proof (Rabs_pos (sin ((p - q) / 2))) as Hs0.
  pose proof (Rabs_pos (cos ((p + q) / 2))) as Hc0.
  assert (Hhalf : Rabs ((p - q) / 2) = Rabs (p - q) / 2).
  { unfold Rdiv. rewrite Rabs_mult, (Rabs_pos_eq (/ 2)) by lra. reflexivity. }
  rewrite Hhalf in Hs. rewrite (Rabs_pos_eq 2) by lra.
  nra.
Qed.

(** After an update of size [delta] the residual of Kepler's equation is
    at most [2 e |delta|]. *)
Lemma residual_after_step (e M E : R) :
  0 <= e < 1 ->
  Rabs (kepler_f e M (newton_step e M E)) <= 2 * e * Rabs (newton_delta e M E).
Proof.
  intros He.
  assert (He' : -1 < e < 1) by lra.
  pose proof (kepler_f_prime_pos e E He') as Hpos.
  unfold newton_step.
  set (delta := newton_delta e M E).
  assert (Hdelta : delta * kepler_f_prime e E = - kepler_f e M E).
  { unfold delta, newton_delta. field. lra. }
  clearbody delta.
  unfold kepler_f, kepler_f_prime in *.
  replace (E + delta - e * sin (E + delta) - M)
    with (e * (delta * cos E - (sin (E + delta) - sin E))) by lra.
  rewrite Rabs_mult, (Rabs_pos_eq e) by lra.
  assert (H1 : Rabs (delta * cos E) <= Rabs delta).
  { rewrite Rabs_mult. pose proof (COS_bound E).
    assert (Rabs (cos E) <= 1) by (apply Rabs_le; lra).
    pose proof (Rabs_pos delta). nra. }
  pose proof (sin_lipschitz (E + delta) E) as H2.
  replace (E + delta - E) with delta in H2 by ring.
  pose proof (Rabs_triang (delta * cos E) (- (sin (E + delta) - sin E))) as H3.
  rewrite Rabs_Ropp in H3.
  unfold Rminus at 1.
  assert (H4 : Rabs (delta * cos E + - (sin (E + delta) - sin E))
               <= 2 * Rabs delta) by lra.
  nra.
Qed.

Lemma newton_iter_S (e M : R) (k : nat) (E : R) :
  newton_iter e M (S k) E = newton_step e M (newton_iter e M k E).
Proof.
  revert E. induction k as [| k IH]; intros E; [reflexivity |].
  cbn [newton_iter] in *. now rewrite IH.
Qed.



(** ** The impact-effects estimator *)

Lemma frac_part_quarter : frac_part 0.25 <> 0.
Proof.
  unfold frac_part.
  replace (Int_part 0.25) with 0%Z by (apply Int_part_spec; simpl; lra).
  simpl. lra.
Qed.

Lemma Rpower_quarter (x : R) : 0 < x -> Rpower x 0.25 = sqrt (sqrt x).
Proof.
  intros Hx.
  rewrite <- (Rpower_sqrt x Hx).
  rewrite <- Rpower_sqrt by apply exp_pos.
  rewrite Rpower_mult. f_equal. lra.
Qed.

Lemma float_pow_quarter_nonneg (ke : R) :
  0 <= ke -> float_pow ke 0.25 = Ok (Float (sqrt (sqrt ke))).
Proof.
  intros Hke. unfold float_pow.
  destruct (Req_dec_T 0.25 0) as [H | _]; [lra |].
  destruct (Req_dec_T ke 0) as [-> | Hne].
  - destruct (Rlt_dec 0.25 0); [lra |]. now rewrite !sqrt_0.
  - destruct (Rlt_dec 0 ke) as [Hpos | H]; [| lra].
    now rewrite Rpower_quarter.
Qed.

Lemma float_pow_quarter_neg (ke : R) :
  ke < 0 ->
  float_pow ke 0.25 =
    Ok (Complex (Rpower (- ke) 0.25 * cos (PI * 0.25))
                (Rpower (- ke) 0.25 * sin (PI * 0.25))).
Proof.
  intros Hke. unfold float_pow.
  destruct (Req_dec_T 0.25 0) as [H | _]; [lra |].
  destruct (Req_dec_T ke 0) as [H | _]; [lra |].
  destruct (Rlt_dec 0 ke) as [H | _]; [lra |].
  destruct (Req_dec_T (frac_part 0.25) 0) as [H | _];
    [now apply frac_part_quarter in H | reflexivity].
Qed.

Lemma math_log10_Ok (x : R) : 0 < x -> math_log10 x = Ok (ln x / ln 10).
Proof.
  intros Hx. unfold math_log10. destruct (Rle_dec x 0); [lra | reflexivity].
Qed.

Lemma number_div_Ok (v : number) (c : R) :
  c <> 0 ->
  number_div v c =
    Ok (match v with
        | Float r => Float (r / c)
        | Complex re im => Complex (re / c) (im / c)
        end).
Proof.
  intros Hc. unfold number_div.
  destruct (Req_dec_T c 0); [contradiction | reflexivity].
Qed.

(** The kinetic energy the estimator computes, and its seismic magnitude. *)
Lemma compute_impact_effects_unfold (d rho v ang c : R) :
  let ke := 0.5 * (4 / 3 * PI * (d / 2) ^ 3 * rho)
            * (v * sin (math_radians ang)) ^ 2 in
  compute_impact_effects d rho v ang c =
    p <- float_pow ke 0.25 ;;
    crater <- number_div (float_mul c p) 1000 ;;
    Ok (mkImpactEffects ke (ke / 4.184e9 / 1e6) crater
          (if Rlt_dec 0 ke then (ln ke / ln 10 - 4.8) / 1.5 else 0)).
Proof.
  intros ke. unfold compute_impact_effects.
  repeat (rewrite truediv_Ok by lra; cbn [bind]). fold ke.
  destruct (float_pow ke 0.25) as [p | err]; cbn [bind]; [| reflexivity].
  destruct (number_div (float_mul c p) 1000) as [cr | err]; cbn [bind];
    [| reflexivity].
  destruct (Rlt_dec 0 ke) as [Hpos | Hnpos]; cbn [bind].
  - rewrite (math_log10_Ok _ Hpos). cbn [bind].
    rewrite truediv_Ok by lra. reflexivity.
  - reflexivity.
Qed.

Lemma kinetic_energy_nonneg (d rho v s : R) :
  0 <= d -> 0 <= rho ->
  0 <= 0.5 * (4 / 3 * PI * (d / 2) ^ 3 * rho) * (v * s) ^ 2.
Proof.
  intros Hd Hrho.
  assert (Hpi : 0 < PI) by apply PI_RGT_0.
  assert (Hr : 0 <= (d / 2) ^ 3) by (apply pow_le; lra).
  assert (Hv : 0 <= (v * s) ^ 2) by apply pow2_ge_0.
  assert (Hm : 0 <= 4 / 3 * PI * (d / 2) ^ 3 * rho).
  { apply Rmult_le_pos; [| exact Hrho].
    apply Rmult_le_pos; [| exact Hr]. lra. }
  apply Rmult_le_pos; [| exact Hv]. lra.
Qed.


(** A negative kinetic energy gives a complex crater diameter, and only
    a negative one does. *)
Lemma crater_real_iff (d rho v ang c : R) :
  exists r : ImpactEffects,
    compute_impact_effects d rho v ang c = Ok r /\
    (is_float (crater_diameter_km r) <-> 0 <= kinetic_energy_joules r).
Proof.
  rewrite compute_impact_effects_unfold. cbv zeta.
  set (ke := 0.5 * (4 / 3 * PI * (d / 2) ^ 3 * rho)
             * (v * sin (math_radians ang)) ^ 2).
  destruct (Rle_dec 0 ke) as [Hge | Hlt].
  - rewrite float_pow_quarter_nonneg by exact Hge. cbn [bind float_mul].
    rewrite number_div_Ok by lra. cbn [bind].
    eexists. split; [reflexivity |]. cbn. tauto.
  - rewrite float_pow_quarter_neg by lra. cbn [bind float_mul].
    rewrite number_div_Ok by lra. cbn [bind].
    eexists. split; [reflexivity |]. cbn. tauto.
Qed.



(** C5: for a non-negative diameter and density (every [ImpactorSpec] has
    them positive) the estimator returns exactly the four metrics of the
    stated formulas: the kinetic energy [0.5 * mass * vVertical^2], its
    TNT equivalent, the quarter-power crater diameter and the
    Gutenberg-Richter magnitude, which is 0 when the energy is not
    positive. *)
Theorem compute_impact_effects_formulas (d rho v ang c : R) :
  0 <= d -> 0 <= rho ->
  SpecFormulas.kineticEnergyJoules d rho v ang =
    0.5 * SpecFormulas.mass d rho * SpecFormulas.vVertical v ang ^ 2 /\
  compute_impact_effects d rho v ang c =
    Ok (mkImpactEffects
          (SpecFormulas.kineticEnergyJoules d rho v ang)
          (SpecFormulas.energyMegatonsTnt
             (SpecFormulas.kineticEnergyJoules d rho v ang))
          (Float (SpecFormulas.craterDiameterKm c
                    (SpecFormulas.kineticEnergyJoules d rho v ang)))
          (SpecFormulas.seismicMagnitude
             (SpecFormulas.kineticEnergyJoules d rho v ang))).
Proof.
  intros Hd Hrho. split; [reflexivity |].
  rewrite compute_impact_effects_unfold. cbv zeta.
  assert (Hang : math_radians ang = ang * PI / 180)
    by (unfold math_radians; field).
  rewrite Hang.
  fold (SpecFormulas.kineticEnergyJoules d rho v ang).
  assert (Hke : 0 <= SpecFormulas.kineticEnergyJoules d rho v ang)
    by (apply kinetic_energy_nonneg; assumption).
  rewrite float_pow_quarter_nonneg by exact Hke. cbn [bind float_mul].
  rewrite number_div_Ok by lra. cbn [bind].
  reflexivity.
Qed.

Lemma compute_impact_effects_formulas_witness :
  0 <= 10 /\ 0 <= 3000 /\
  SpecFormulas.kineticEnergyJoules 10 3000 20000 90 =
    0.5 * SpecFormulas.mass 10 3000 * SpecFormulas.vVertical 20000 90 ^ 2 /\
  compute_impact_effects 10 3000 20000 90 default_crater_coeff =
    Ok (mkImpactEffects
          (SpecFormulas.kineticEnergyJoules 10 3000 20000 90)
          (SpecFormulas.energyMegatonsTnt
             (SpecFormulas.kineticEnergyJoules 10 3000 20000 90))
          (Float (SpecFormulas.craterDiameterKm default_crater_coeff
                    (SpecFormulas.kineticEnergyJoules 10 3000 20000 90)))
          (SpecFormulas.seismicMagnitude
             (SpecFormulas.kineticEnergyJoules 10 3000 20000 90))).
Proof.
  split; [lra |]. split; [lra |].
  apply (compute_impact_effects_formulas 10 3000 20000 90 default_crater_coeff);
    lra.
Defined.

(** C10: with a non-negative diameter and density, any velocity and angle
    (and a non-negative crater coefficient, as the default is), the
    estimator returns a non-negative kinetic energy, a non-negative TNT
    equivalent and a real, non-negative crater diameter. *)
Theorem impact_metrics_nonneg (d rho v ang c : R) :
  0 <= d -> 0 <= rho -> 0 <= c ->
  exists ke mt cr mag : R,
    compute_impact_effects d rho v ang c =
      Ok (mkImpactEffects ke mt (Float cr) mag) /\
    0 <= ke /\ 0 <= mt /\ 0 <= cr.
Proof.
  intros Hd Hrho Hc.
  rewrite compute_impact_effects_unfold. cbv zeta.
  set (ke := 0.5 * (4 / 3 * PI * (d / 2) ^ 3 * rho)
             * (v * sin (math_radians ang)) ^ 2).
  assert (Hke : 0 <= ke) by (apply kinetic_energy_nonneg; assumption).
  rewrite float_pow_quarter_nonneg by exact Hke. cbn [bind float_mul].
  rewrite number_div_Ok by lra. cbn [bind].
  do 4 eexists. split; [reflexivity |].
  split; [exact Hke |]. split.
  - apply Rmult_le_pos; [| lra]. apply Rmult_le_pos; lra.
  - apply Rmult_le_pos; [| lra].
    apply Rmult_le_pos; [exact Hc | apply sqrt_pos].
Qed.

Lemma impact_metrics_nonneg_witness :
  0 <= 10 /\ 0 <= 3000 /\ 0 <= default_crater_coeff /\
  exists ke mt cr mag : R,
    compute_impact_effects 10 3000 20000 45 default_crater_coeff =
      Ok (mkImpactEffects ke mt (Float cr) mag) /\
    0 <= ke /\ 0 <= mt /\ 0 <= cr.
Proof.
  assert (Hc : 0 <= default_crater_coeff) by (unfold default_crater_coeff; lra).
  split; [lra |]. split; [lra |]. split; [exact Hc |].
  apply (impact_metrics_nonneg 10 3000 20000 45 default_crater_coeff);
    [lra | lra | exact Hc].
Defined.

(** ** [math.fmod] *)

Lemma math_fmod_Ok (x y : R) :
  y <> 0 -> math_fmod x y = Ok (x - IZR (trunc (x / y)) * y).
Proof.
  intros Hy. unfold math_fmod.
  destruct (Req_dec_T y 0); [contradiction | reflexivity].
Qed.

Lemma trunc_small_neg (x : R) : -1 < x <= 0 -> trunc x = 0%Z.
Proof.
  intros [Hlo Hhi]. unfold trunc.
  destruct (Rle_dec 0 x) as [Hx | Hx].
  - symmetry. apply Int_part_spec. simpl. lra.
  - replace (Int_part (- x)) with 0%Z; [reflexivity |].
    apply Int_part_spec. simpl. lra.
Qed.

(** The truncating remainder keeps the sign of the dividend. *)
Lemma math_fmod_range (x y : R) :
  0 < y ->
  exists m : R,
    math_fmod x y = Ok m /\
    (0 <= x -> 0 <= m < y) /\
    (x < 0 -> - y < m <= 0).
Proof.
  intros Hy. rewrite math_fmod_Ok by lra.
  eexists. split; [reflexivity |]. unfold trunc.
  destruct (Rle_dec 0 (x / y)) as [Hq | Hq].
  - destruct (base_Int_part (x / y)) as [Hlo Hhi].
    assert (Hx : x = x / y * y) by (field; lra).
    split; intros Hsign.
    + split; nra.
    + assert (x / y < 0); [| lra].
      apply Rmult_lt_reg_r with y; [exact Hy |]. lra.
  - assert (Hq' : x / y < 0) by lra.
    destruct (base_Int_part (- (x / y))) as [Hlo Hhi].
    assert (Hx : x = x / y * y) by (field; lra).
    rewrite opp_IZR.
    split; intros Hsign.
    + assert (0 <= x / y); [| lra].
      apply Rmult_le_reg_r with y; [exact Hy |]. lra.
    + split; nra.
Qed.

(** ** The orbit propagator *)

Lemma two_PI_pos : 0 < 2 * PI.
Proof. pose proof PI_RGT_0. lra. Qed.

Lemma range_nonpos (n : Z) : (n <= 0)%Z -> range n = [].
Proof.
  intros Hn. unfold range.
  replace (Z.to_nat n) with 0%nat by lia. reflexivity.
Qed.

Lemma range_length (n : Z) : length (range n) = Z.to_nat n.
Proof. unfold range. now rewrite length_map, length_seq. Qed.

Lemma range_nth_error (n : Z) (j : nat) :
  (j < Z.to_nat n)%nat -> nth_error (range n) j = Some (Z.of_nat j).
Proof.
  intros Hj. unfold range.
  rewrite nth_error_map, nth_error_seq.
  destruct (Nat.ltb_spec j (Z.to_nat n)) as [_ | H]; [reflexivity | lia].
Qed.

Lemma range_pos (n : Z) :
  (1 <= n)%Z -> exists js : list Z, range n = 0%Z :: js.
Proof.
  intros Hn. unfold range.
  destruct (Z.to_nat n) as [| m] eqn:Hm; [lia |].
  cbn [seq map]. now eexists.
Qed.

(** The mean anomaly handed to the solver has the sign of [M0 + n t]. *)
Lemma mean_anomaly_at_sign (M_deg n t : R) :
  exists m : R,
    mean_anomaly_at M_deg n t = Ok m /\
    (0 <= math_radians M_deg + n * t -> 0 <= m < 2 * PI) /\
    (math_radians M_deg + n * t < 0 -> - (2 * PI) < m <= 0).
Proof.
  unfold mean_anomaly_at. apply math_fmod_range, two_PI_pos.
Qed.

(** C3 (the code at [M_deg = -90], first sample of a two-step schedule):
    the elapsed time is 0 and the mean anomaly handed to the solver is
    [-pi/2], which is negative: [math.fmod] truncates. *)
Theorem mean_anomaly_negative_at_epoch (timespan_days n : R) :
  sample_time 2 timespan_days 0 = Ok 0 /\
  mean_anomaly_at (-90) n 0 = Ok (- (PI / 2)) /\
  - (PI / 2) < 0.
Proof.
  pose proof PI_RGT_0 as Hpi.
  split; [| split].
  - unfold sample_time, int_truediv. cbn. f_equal. unfold dt_total. lra.
  - unfold mean_anomaly_at. cbv zeta.
    rewrite math_fmod_Ok by lra.
    rewrite trunc_small_neg.
    + f_equal. unfold math_radians. lra.
    + replace ((math_radians (-90) + n * 0) / (2 * PI)) with (- (1 / 4)).
      * lra.
      * unfold math_radians. field. lra.
  - lra.
Qed.

Lemma mean_motion_Ok (a mu : R) :
  0 < a -> 0 <= mu -> mean_motion a mu = Ok (sqrt (mu / a_km a ^ 3)).
Proof.
  intros Ha Hmu. unfold mean_motion.
  assert (Hk : 0 < a_km a) by (unfold a_km; lra).
  assert (Hk3 : 0 < a_km a ^ 3) by (apply pow_lt; exact Hk).
  rewrite truediv_Ok by lra. cbn [bind].
  apply math_sqrt_Ok. apply Rmult_le_pos; [exact Hmu |].
  left. now apply Rinv_0_lt_compat.
Qed.

Lemma mean_motion_zero_axis (mu : R) :
  mean_motion 0 mu = Raise ZeroDivisionError.
Proof.
  unfold mean_motion, a_km.
  replace ((0 * 1.496e8) ^ 3) with 0 by ring.
  now rewrite truediv_zero.
Qed.

Lemma mean_motion_negative_axis (a mu : R) :
  a < 0 -> 0 < mu -> mean_motion a mu = Raise ValueError.
Proof.
  intros Ha Hmu. unfold mean_motion.
  assert (Hk : 0 < - a_km a) by (unfold a_km; lra).
  assert (Hk3 : a_km a ^ 3 < 0).
  { assert (H : 0 < (- a_km a) ^ 3) by (apply pow_lt; exact Hk).
    replace ((- a_km a) ^ 3) with (- a_km a ^ 3) in H by ring. lra. }
  rewrite truediv_Ok by lra. cbn [bind].
  apply math_sqrt_neg.
  assert (Hinv : / a_km a ^ 3 < 0) by (apply Rinv_lt_0_compat; exact Hk3).
  unfold Rdiv. nra.
Qed.

Section PropagatorProperties.

Variables (a e i_deg omega_deg w_deg M_deg : R).
Variables (steps : Z) (timespan_days : R).

Local Abbreviation sample :=
  (orbit_sample a e i_deg omega_deg w_deg M_deg steps timespan_days).
Local Abbreviation loop :=
  (orbit_loop a e i_deg omega_deg w_deg M_deg steps timespan_days).
Local Abbreviation position :=
  (position_at a e i_deg omega_deg w_deg M_deg).

Lemma sample_time_Ok (j : Z) :
  steps <> 1%Z ->
  sample_time steps timespan_days j =
    Ok (IZR j / IZR (steps - 1) * dt_total timespan_days).
Proof.
  intros Hs. unfold sample_time, int_truediv.
  destruct (Z.eq_dec (steps - 1) 0) as [H | _]; [lia | reflexivity].
Qed.

Lemma sample_time_one_step (j : Z) :
  steps = 1%Z ->
  sample_time steps timespan_days j = Raise ZeroDivisionError.
Proof.
  intros ->. unfold sample_time, int_truediv. reflexivity.
Qed.

Lemma position_of_anomaly_returns (E : R) :
  -1 <= e <= 1 ->
  returns (position_of_anomaly a e i_deg omega_deg w_deg E).
Proof.
  intros He. unfold position_of_anomaly.
  rewrite !math_sqrt_Ok by lra. cbn [bind]. now eexists.
Qed.

Lemma position_of_anomaly_raises (E : R) :
  1 < Rabs e ->
  position_of_anomaly a e i_deg omega_deg w_deg E = Raise ValueError.
Proof.
  intros He. unfold position_of_anomaly.
  destruct (Rlt_dec (1 + e) 0) as [Hneg | Hpos].
  - now rewrite (math_sqrt_neg (1 + e)).
  - rewrite (math_sqrt_Ok (1 + e)) by lra. cbn [bind].
    assert (H1 : 1 - e < 0).
    { unfold Rabs in He. destruct (Rcase_abs e); lra. }
    now rewrite (math_sqrt_neg (1 - e)).
Qed.

Lemma position_at_returns (n t : R) :
  -1 < e < 1 -> returns (position n t).
Proof.
  intros He. unfold position_at, eccentric_anomaly_at.
  destruct (mean_anomaly_at_sign M_deg n t) as (m & -> & _).
  cbn [bind]. unfold _solve_keplers_equation.
  destruct (kepler_loop_returns e m default_tol 50 m He) as (E & ->).
  cbn [bind]. apply position_of_anomaly_returns. lra.
Qed.

Lemma position_at_raises (n t : R) :
  1 < Rabs e -> raises (position n t).
Proof.
  intros He. unfold position_at, eccentric_anomaly_at.
  destruct (mean_anomaly_at_sign M_deg n t) as (m & -> & _).
  cbn [bind].
  destruct (_solve_keplers_equation e m default_tol) as [E | err];
    cbn [bind].
  - exists ValueError. now apply position_of_anomaly_raises.
  - now exists err.
Qed.

(** When every sample returns, the loop appends them in order. *)
Lemma orbit_loop_Ok (n : R) (g : Z -> Position) (js : list Z) :
  (forall j, In j js -> sample n j = Ok (g j)) ->
  forall positions, loop n js positions = Ok (positions ++ map g js).
Proof.
  induction js as [| j js IH]; intros Hall positions; cbn [orbit_loop map].
  - now rewrite app_nil_r.
  - rewrite (Hall j) by now left. cbn [bind].
    rewrite IH by (intros j' Hj'; apply Hall; now right).
    now rewrite <- app_assoc.
Qed.

Lemma orbit_loop_raises (n : R) (j : Z) (js : list Z) positions :
  raises (sample n j) -> raises (loop n (j :: js) positions).
Proof.
  intros (err & Herr). cbn [orbit_loop]. rewrite Herr. now exists err.
Qed.

End PropagatorProperties.

(** With [-1 < e < 1] and a schedule of at least two steps, the loop
    returns one position per index, in order. *)
Lemma orbit_loop_returns (a e i_deg omega_deg w_deg M_deg : R)
    (steps : Z) (timespan_days n : R) :
  -1 < e < 1 -> steps <> 1%Z ->
  exists ps : list Position,
    orbit_loop a e i_deg omega_deg w_deg M_deg steps timespan_days n
      (range steps) [] = Ok ps /\
    length ps = Z.to_nat steps /\
    (forall j : nat, (j < Z.to_nat steps)%nat ->
       exists p : Position,
         nth_error ps j = Some p /\
         position_at a e i_deg omega_deg w_deg M_deg n
           (INR j / (IZR steps - 1) * timespan_days * 86400) = Ok p).
Proof.
  intros He Hs.
  set (time := fun j : Z => IZR j / IZR (steps - 1) * dt_total timespan_days).
  set (g := fun j : Z =>
              match position_at a e i_deg omega_deg w_deg M_deg n (time j) with
              | Ok p => p
              | Raise _ => mkPosition 0 0 0
              end).
  assert (Hg : forall j : Z,
             position_at a e i_deg omega_deg w_deg M_deg n (time j) = Ok (g j)).
  { intros j. unfold g.
    destruct (position_at_returns a e i_deg omega_deg w_deg M_deg n (time j) He)
      as (p & ->). reflexivity. }
  exists ([] ++ map g (range steps)). split; [| split].
  - apply orbit_loop_Ok. intros j _. unfold orbit_sample.
    rewrite sample_time_Ok by exact Hs. cbn [bind]. apply Hg.
  - cbn [app]. now rewrite length_map, range_length.
  - intros j Hj. exists (g (Z.of_nat j)). split.
    + cbn [app]. rewrite nth_error_map, range_nth_error by exact Hj.
      reflexivity.
    + rewrite <- Hg. f_equal. unfold time.
      rewrite INR_IZR_INZ, minus_IZR. unfold dt_total, Rdiv. ring.
Qed.

(** C4: for a positive semi-major axis, an eccentricity in [[0,1)] and a
    schedule of at least two steps, the propagator returns exactly [steps]
    positions, in order; the one at index [j] is the position at the
    elapsed time [(j/(steps-1)) * timespanDays * 86400] seconds, which is 0
    at index 0 and [timespanDays] days at index [steps-1]. *)
Theorem propagate_shape (a e i_deg omega_deg w_deg M_deg mu : R)
    (steps : Z) (timespan_days : R) :
  0 < a -> 0 <= e < 1 -> 0 <= mu -> (2 <= steps)%Z ->
  exists (n : R) (ps : list Position),
    mean_motion a mu = Ok n /\
    kepler_to_cartesian a e i_deg omega_deg w_deg M_deg mu steps timespan_days
      = Ok ps /\
    length ps = Z.to_nat steps /\
    (forall j : nat, (j < Z.to_nat steps)%nat ->
       exists p : Position,
         nth_error ps j = Some p /\
         position_at a e i_deg omega_deg w_deg M_deg n
           (INR j / (IZR steps - 1) * timespan_days * 86400) = Ok p) /\
    INR 0 / (IZR steps - 1) * timespan_days * 86400 = 0 /\
    INR (Z.to_nat steps - 1) / (IZR steps - 1) * timespan_days * 86400
      = timespan_days * 86400.
Proof.
  intros Ha He Hmu Hsteps.
  exists (sqrt (mu / a_km a ^ 3)).
  destruct (orbit_loop_returns a e i_deg omega_deg w_deg M_deg steps
              timespan_days (sqrt (mu / a_km a ^ 3)))
    as (ps & Hps & Hlen & Hnth); [lra | lia |].
  exists ps. split; [now apply mean_motion_Ok |]. split.
  - unfold kepler_to_cartesian. rewrite mean_motion_Ok by assumption.
    cbn [bind]. exact Hps.
  - split; [exact Hlen |]. split; [exact Hnth |]. split.
    + cbn [INR]. unfold Rdiv. ring.
    + assert (Hz : IZR steps - 1 <> 0).
      { apply IZR_le in Hsteps. lra. }
      rewrite INR_IZR_INZ, Nat2Z.inj_sub by lia.
      rewrite Z2Nat.id by lia. cbn [Z.of_nat]. rewrite minus_IZR.
      field. exact Hz.
Qed.

Lemma propagate_shape_witness :
  0 < 1 /\ 0 <= 1 / 2 < 1 /\ 0 <= default_mu /\ (2 <= 200)%Z /\
  exists (n : R) (ps : list Position),
    mean_motion 1 default_mu = Ok n /\
    kepler_to_cartesian 1 (1 / 2) 10 20 30 40 default_mu 200 365.25 = Ok ps /\
    length ps = Z.to_nat 200 /\
    (forall j : nat, (j < Z.to_nat 200)%nat ->
       exists p : Position,
         nth_error ps j = Some p /\
         position_at 1 (1 / 2) 10 20 30 40 n
           (INR j / (IZR 200 - 1) * 365.25 * 86400) = Ok p) /\
    INR 0 / (IZR 200 - 1) * 365.25 * 86400 = 0 /\
    INR (Z.to_nat 200 - 1) / (IZR 200 - 1) * 365.25 * 86400
      = 365.25 * 86400.
Proof.
  assert (Hmu : 0 <= default_mu) by (unfold default_mu; lra).
  split; [lra |]. split; [lra |]. split; [exact Hmu |]. split; [lia |].
  apply (propagate_shape 1 (1 / 2) 10 20 30 40 default_mu 200 365.25);
    [lra | lra | exact Hmu | lia].
Defined.

(** C1 (as stated): a schedule of 0 steps is not rejected; the propagator
    returns the empty trajectory. *)
Lemma propagate_zero_steps_returns :
  (0 < 2)%Z /\
  kepler_to_cartesian 1 (1 / 2) 0 0 0 0 default_mu 0 365.25 = Ok [].
Proof.
  split; [lia |]. unfold kepler_to_cartesian.
  rewrite mean_motion_Ok by (unfold default_mu; lra).
  reflexivity.
Qed.

(** An eccentricity below 0 is not rejected either. *)
Lemma propagate_negative_eccentricity_returns :
  exists ps : list Position,
    kepler_to_cartesian 1 (- (1 / 2)) 0 0 0 0 default_mu 2 365.25 = Ok ps /\
    length ps = 2%nat.
Proof.
  unfold kepler_to_cartesian.
  rewrite mean_motion_Ok by (unfold default_mu; lra). cbn [bind].
  destruct (orbit_loop_returns 1 (- (1 / 2)) 0 0 0 0 2 365.25
              (sqrt (default_mu / a_km 1 ^ 3)))
    as (ps & Hps & Hlen & _); [lra | lia |].
  exists ps. split; [exact Hps | exact Hlen].
Qed.

(** C1 (amended): the propagator has no validation step and no
    [InvalidInput] error.  A semi-major axis of 0 raises
    [ZeroDivisionError] and a negative one (with [mu > 0]) raises
    [ValueError], both while the mean motion is computed, before any
    sample.  With a positive axis: a schedule of one step raises
    [ZeroDivisionError] at the first sample, an eccentricity with
    [|e| > 1] and at least two steps raises at the first sample, a schedule
    of no steps returns the empty trajectory, and an eccentricity in
    [(-1,0)] returns a trajectory of [steps] positions. *)
Theorem propagate_out_of_domain (a e i_deg omega_deg w_deg M_deg mu : R)
    (steps : Z) (timespan_days : R) :
  let propagate :=
    kepler_to_cartesian a e i_deg omega_deg w_deg M_deg mu steps timespan_days
  in
  (a = 0 -> propagate = Raise ZeroDivisionError) /\
  (a < 0 -> 0 < mu -> propagate = Raise ValueError) /\
  (0 < a -> 0 <= mu -> steps = 1%Z -> propagate = Raise ZeroDivisionError) /\
  (0 < a -> 0 <= mu -> (2 <= steps)%Z -> 1 < Rabs e -> raises propagate) /\
  (0 < a -> 0 <= mu -> (steps <= 0)%Z -> propagate = Ok []) /\
  (0 < a -> 0 <= mu -> (2 <= steps)%Z -> -1 < e < 0 ->
   exists ps : list Position,
     propagate = Ok ps /\ length ps = Z.to_nat steps).
Proof.
  cbv zeta. unfold kepler_to_cartesian.
  split; [| split; [| split; [| split; [| split]]]].
  - intros ->. now rewrite mean_motion_zero_axis.
  - intros Ha Hmu. now rewrite mean_motion_negative_axis.
  - intros Ha Hmu ->. rewrite mean_motion_Ok by assumption. reflexivity.
  - intros Ha Hmu Hsteps He. rewrite mean_motion_Ok by assumption.
    cbn [bind].
    destruct (range_pos steps) as (js & ->); [lia |].
    apply orbit_loop_raises. unfold orbit_sample.
    rewrite sample_time_Ok by lia. cbn [bind].
    now apply position_at_raises.
  - intros Ha Hmu Hsteps. rewrite mean_motion_Ok by assumption.
    cbn [bind]. now rewrite range_nonpos.
  - intros Ha Hmu Hsteps He. rewrite mean_motion_Ok by assumption.
    cbn [bind].
    destruct (orbit_loop_returns a e i_deg omega_deg w_deg M_deg steps
                timespan_days (sqrt (mu / a_km a ^ 3)))
      as (ps & Hps & Hlen & _); [lra | lia |].
    exists ps. split; [exact Hps | exact Hlen].
Qed.

Lemma propagate_out_of_domain_witness :
  kepler_to_cartesian 0 (1 / 2) 0 0 0 0 default_mu 200 365.25
    = Raise ZeroDivisionError /\
  kepler_to_cartesian (-1) (1 / 2) 0 0 0 0 default_mu 200 365.25
    = Raise ValueError /\
  kepler_to_cartesian 1 (1 / 2) 0 0 0 0 default_mu 1 365.25
    = Raise ZeroDivisionError /\
  raises (kepler_to_cartesian 1 2 0 0 0 0 default_mu 200 365.25) /\
  kepler_to_cartesian 1 (1 / 2) 0 0 0 0 default_mu (-3) 365.25 = Ok [] /\
  exists ps : list Position,
    kepler_to_cartesian 1 (- (1 / 2)) 0 0 0 0 default_mu 200 365.25 = Ok ps /\
    length ps = Z.to_nat 200.
Proof.
  assert (Hmu : 0 < default_mu) by (unfold default_mu; lra).
  assert (Hmu' : 0 <= default_mu) by lra.
  split; [| split; [| split; [| split; [| split]]]].
  - destruct (propagate_out_of_domain 0 (1 / 2) 0 0 0 0 default_mu 200 365.25)
      as (H & _).
    apply H. reflexivity.
  - destruct (propagate_out_of_domain (-1) (1 / 2) 0 0 0 0 default_mu 200 365.25)
      as (_ & H & _).
    apply H; [lra | exact Hmu].
  - destruct (propagate_out_of_domain 1 (1 / 2) 0 0 0 0 default_mu 1 365.25)
      as (_ & _ & H & _).
    apply H; [lra | exact Hmu' | reflexivity].
  - destruct (propagate_out_of_domain 1 2 0 0 0 0 default_mu 200 365.25)
      as (_ & _ & _ & H & _).
    apply H; [lra | exact Hmu' | lia |].
    rewrite Rabs_pos_eq; lra.
  - destruct (propagate_out_of_domain 1 (1 / 2) 0 0 0 0 default_mu (-3) 365.25)
      as (_ & _ & _ & _ & H & _).
    apply H; [lra | exact Hmu' | lia].
  - destruct (propagate_out_of_domain 1 (- (1 / 2)) 0 0 0 0 default_mu 200 365.25)
      as (_ & _ & _ & _ & _ & H).
    apply H; [lra | exact Hmu' | lia | lra].
Defined.

(** * Further properties *)

(** ** Symmetries of the Kepler solver *)







Lemma kepler_loop_opp (fuel : nat) (e M tol E : R) :
  kepler_loop fuel e (- M) tol (- E) =
    E' <- kepler_loop fuel e M tol E ;; Ok (- E').
Proof.
  revert E. induction fuel as [| fuel IH]; intros E.
  - reflexivity.
  - cbn [kepler_loop]. rewrite sin_neg, cos_neg.
    replace (- (- E - e * - sin E - - M)) with (- - (E - e * sin E - M)) by ring.
    unfold truediv.
    destruct (Req_dec_T (1 - e * cos E) 0) as [_ | Hne]; cbn [bind];
      [reflexivity |].
    replace (- - (E - e * sin E - M) / (1 - e * cos E))
      with (- (- (E - e * sin E - M) / (1 - e * cos E)))
      by (field; exact Hne).
    rewrite Rabs_Ropp.
    set (delta := - (E - e * sin E - M) / (1 - e * cos E)).
    replace (- E + - delta) with (- (E + delta)) by ring.
    destruct (Rlt_dec (Rabs delta) tol); [reflexivity | apply IH].
Qed.

(** X2: The solver is odd in the mean anomaly. *)
Theorem solve_keplers_equation_odd (e M tol : R) :
  _solve_keplers_equation e (- M) tol =
    E <- _solve_keplers_equation e M tol ;; Ok (- E).
Proof.
  unfold _solve_keplers_equation. apply kepler_loop_opp.
Qed.

(** X3: At the apsides, where the mean anomaly is a multiple of [pi], the
    initial guess already solves the equation and is returned. *)
Theorem solve_keplers_equation_apsides (e tol : R) (k : Z) :
  -1 < e < 1 -> 0 < tol ->
  _solve_keplers_equation e (IZR k * PI) tol = Ok (IZR k * PI).
Proof.
  intros He Htol. unfold _solve_keplers_equation.
  pose proof (kepler_f_prime_pos e (IZR k * PI) He) as Hpos.
  rewrite kepler_loop_S by lra.
  assert (Hdelta : newton_delta e (IZR k * PI) (IZR k * PI) = 0).
  { unfold newton_delta, kepler_f.
    rewrite (sin_eq_0_1 (IZR k * PI)) by now exists k.
    unfold Rdiv. ring. }
  unfold newton_step. rewrite Hdelta, Rabs_R0.
  destruct (Rlt_dec 0 tol); [f_equal; ring | contradiction].
Qed.

Lemma solve_keplers_equation_apsides_witness :
  -1 < 1 / 2 < 1 /\ 0 < default_tol /\
  _solve_keplers_equation (1 / 2) (IZR 3 * PI) default_tol = Ok (IZR 3 * PI).
Proof.
  split; [lra |]. split; [apply default_tol_pos |].
  apply (solve_keplers_equation_apsides (1 / 2) default_tol 3);
    [lra | apply default_tol_pos].
Defined.

(** ** Accuracy of a converged solve *)

Lemma kepler_f_continuous (e M : R) : continuity (kepler_f e M).
Proof.
  change (kepler_f e M) with (id - mult_real_fct e sin - fct_cte M)%F.
  apply continuity_minus; [apply continuity_minus |].
  - apply derivable_continuous, derivable_id.
  - apply continuity_scal, continuity_sin.
  - apply continuity_const. intros u v. reflexivity.
Qed.

(** [E - e sin E] grows at least at the rate [1 - e]. *)
Lemma kepler_f_expansive (e M E1 E2 : R) :
  0 <= e ->
  (1 - e) * Rabs (E1 - E2) <= Rabs (kepler_f e M E1 - kepler_f e M E2).
Proof.
  intros He. unfold kepler_f.
  replace (E1 - e * sin E1 - M - (E2 - e * sin E2 - M))
    with ((E1 - E2) - e * (sin E1 - sin E2)) by ring.
  pose proof (sin_lipschitz E1 E2) as Hl.
  pose proof (Rabs_triang_inv (E1 - E2) (e * (sin E1 - sin E2))) as Ht.
  rewrite Rabs_mult, (Rabs_pos_eq e) in Ht by exact He.
  pose proof (Rabs_pos (sin E1 - sin E2)).
  nra.
Qed.

(** Kepler's equation has exactly one solution, within 1 of [M]. *)
Lemma kepler_equation_unique_solution (e M : R) :
  0 <= e < 1 ->
  exists Estar : R,
    M - 1 <= Estar <= M + 1 /\
    kepler_f e M Estar = 0 /\
    (forall E, kepler_f e M E = 0 -> E = Estar).
Proof.
  intros He.
  destruct (IVT (kepler_f e M) (M - 1) (M + 1)) as (Estar & Hin & Hz).
  - apply kepler_f_continuous.
  - lra.
  - unfold kepler_f. pose proof (SIN_bound (M - 1)). nra.
  - unfold kepler_f. pose proof (SIN_bound (M + 1)). nra.
  - exists Estar. split; [exact Hin |]. split; [exact Hz |].
    intros E HE.
    pose proof (kepler_f_expansive e M E Estar (proj1 He)) as Hx.
    rewrite HE, Hz, Rminus_0_r, Rabs_R0 in Hx.
    pose proof (Rabs_pos (E - Estar)) as Hp.
    assert (Habs : Rabs (E - Estar) = 0) by nra.
    destruct (Req_dec (E - Estar) 0) as [H0 | Hn0]; [lra |].
    apply Rabs_no_R0 in Hn0. contradiction.
Qed.

(** When an update is below the tolerance the solver returns an iterate
    whose residual is at most [2 e tol]. *)
Lemma converged_residual (e M tol : R) :
  0 <= e < 1 ->
  (exists j : nat,
     (j < 50)%nat /\ Rabs (newton_delta e M (newton_iter e M j M)) < tol) ->
  exists E : R,
    _solve_keplers_equation e M tol = Ok E /\
    Rabs (kepler_f e M E) <= 2 * e * tol.
Proof.
  intros He (j & Hj & Hconv).
  destruct (kepler_loop_iter e M tol) with (fuel := 50%nat) (E := M)
    as (k & Hk & Hpos & Hres & Hbefore & Hlast).
  { intros E'. assert (He' : -1 < e < 1) by lra.
    pose proof (kepler_f_prime_pos e E' He'). lra. }
  assert (Hk1 : (0 < k)%nat) by (apply Hpos; lia).
  assert (Hstep : Rabs (newton_delta e M (newton_iter e M (pred k) M)) < tol).
  { destruct (Nat.eq_dec k 50) as [-> | Hne]; [| apply Hlast; lia].
    destruct (Nat.eq_dec j 49) as [-> | Hj49]; [exact Hconv |].
    assert (Hlt : (S j < 50)%nat) by lia.
    specialize (Hbefore j Hlt). lra. }
  exists (newton_iter e M k M). split; [exact Hres |].
  destruct k as [| k']; [lia |]. cbn [pred] in Hstep.
  rewrite newton_iter_S.
  pose proof (residual_after_step e M (newton_iter e M k' M) He) as Hr.
  pose proof (Rabs_pos (newton_delta e M (newton_iter e M k' M))) as Hd0.
  nra.
Qed.

(** X4: when the solver converges, the eccentric anomaly it returns is
    within [2 e tol / (1 - e)] of the exact solution of Kepler's
    equation. *)
Theorem solve_keplers_equation_accuracy (e M : R) :
  0 <= e < 1 ->
  (exists j : nat,
     (j < 50)%nat /\
     Rabs (newton_delta e M (newton_iter e M j M)) < default_tol) ->
  exists E Estar : R,
    _solve_keplers_equation e M default_tol = Ok E /\
    kepler_f e M Estar = 0 /\
    (forall E', kepler_f e M E' = 0 -> E' = Estar) /\
    Rabs (E - Estar) <= 2 * e * default_tol / (1 - e).
Proof.
  intros He Hconv.
  destruct (converged_residual e M default_tol He Hconv) as (E & HE & Hres).
  destruct (kepler_equation_unique_solution e M He)
    as (Estar & _ & Hz & Huniq).
  exists E, Estar. split; [exact HE |]. split; [exact Hz |].
  split; [exact Huniq |].
  pose proof (kepler_f_expansive e M E Estar (proj1 He)) as Hx.
  rewrite Hz, Rminus_0_r in Hx.
  apply Rmult_le_reg_l with (1 - e); [lra |].
  replace ((1 - e) * (2 * e * default_tol / (1 - e)))
    with (2 * e * default_tol) by (field; lra).
  lra.
Qed.

(** ** Geometry of the positions *)


Section PositionGeometry.

Variables (a e i_deg omega_deg w_deg : R).

Local Abbreviation position_of := (position_of_anomaly a e i_deg omega_deg w_deg).



(** The distance from the Sun is [r = a (1 - e cos E)]: the rotations
    keep it. *)
Lemma position_of_anomaly_distance (E : R) (p : Position) :
  position_of E = Ok p ->
  distance2 p = (a_km a * (1 - e * cos E)) ^ 2.
Proof.
  unfold position_of_anomaly.
  destruct (math_sqrt (1 + e)) as [s1 | err]; cbn [bind]; [| discriminate].
  destruct (math_sqrt (1 - e)) as [s2 | err]; cbn [bind]; [| discriminate].
  intros H. injection H as <-. unfold distance2. cbn [x y z].
  set (nu := 2 * math_atan2 (s1 * sin (E / 2)) (s2 * cos (E / 2))).
  set (r := a_km a * (1 - e * cos E)).
  pose proof (sin2_cos2 nu) as Hnu.
  pose proof (sin2_cos2 (math_radians w_deg)) as Hw.
  pose proof (sin2_cos2 (math_radians i_deg)) as Hi.
  pose proof (sin2_cos2 (math_radians omega_deg)) as Ho.
  unfold Rsqr in *.
  generalize dependent (sin nu). generalize dependent (cos nu).
  generalize dependent (sin (math_radians w_deg)).
  generalize dependent (cos (math_radians w_deg)).
  generalize dependent (sin (math_radians i_deg)).
  generalize dependent (cos (math_radians i_deg)).
  generalize dependent (sin (math_radians omega_deg)).
  generalize dependent (cos (math_radians omega_deg)).
  clearbody r. clear nu.
  intros co so Ho ci si Hi cw sw Hw cn sn Hn.
  replace ((co * (cw * (r * cn) - sw * (r * sn))
            - so * (ci * (sw * (r * cn) + cw * (r * sn)) - si * 0)) ^ 2
           + (so * (cw * (r * cn) - sw * (r * sn))
              + co * (ci * (sw * (r * cn) + cw * (r * sn)) - si * 0)) ^ 2
           + (si * (sw * (r * cn) + cw * (r * sn)) + ci * 0) ^ 2)
    with (r ^ 2 * ((so * so + co * co)
                   * ((sw * sw + cw * cw) * (sn * sn + cn * cn)
                      - (1 - (si * si + ci * ci)) * (sw * cn + cw * sn) ^ 2)
                   + (1 - (so * so + co * co)) * (si * (sw * cn + cw * sn)) ^ 2))
    by ring.
  rewrite Ho, Hi, Hw, Hn. ring.
Qed.

End PositionGeometry.

(** ** Properties of the trajectory *)

Section TrajectoryProperties.

Variables (a e i_deg omega_deg w_deg M_deg : R).
Variables (steps : Z) (timespan_days : R).

Local Abbreviation sample :=
  (orbit_sample a e i_deg omega_deg w_deg M_deg steps timespan_days).
Local Abbreviation loop :=
  (orbit_loop a e i_deg omega_deg w_deg M_deg steps timespan_days).
Local Abbreviation position_of :=
  (position_of_anomaly a e i_deg omega_deg w_deg).

(** Every position the loop returns was there before or is a sample. *)
Lemma orbit_loop_In (n : R) (js : list Z) :
  forall (positions ps : list Position) (p : Position),
    loop n js positions = Ok ps -> In p ps ->
    In p positions \/ exists j : Z, In j js /\ sample n j = Ok p.
Proof.
  induction js as [| j js IH]; intros positions ps p Hloop Hp;
    cbn [orbit_loop] in Hloop.
  - injection Hloop as <-. now left.
  - destruct (sample n j) as [q | err] eqn:Hq; cbn [bind] in Hloop;
      [| discriminate].
    destruct (IH _ _ _ Hloop Hp) as [Hin | (j' & Hj' & Hs)].
    + apply in_app_or in Hin. destruct Hin as [Hin | [<- | []]].
      * now left.
      * right. exists j. split; [now left | exact Hq].
    + right. exists j'. split; [now right | exact Hs].
Qed.

(** Every sample is the position of some eccentric anomaly. *)
Lemma orbit_sample_anomaly (n : R) (j : Z) (p : Position) :
  sample n j = Ok p -> exists E : R, position_of E = Ok p.
Proof.
  unfold orbit_sample, position_at.
  destruct (sample_time steps timespan_days j) as [t | err]; cbn [bind];
    [| discriminate].
  destruct (eccentric_anomaly_at e M_deg n t) as [E | err]; cbn [bind];
    [| discriminate].
  intros H. now exists E.
Qed.

Lemma trajectory_anomaly (mu : R) (ps : list Position) (p : Position) :
  kepler_to_cartesian a e i_deg omega_deg w_deg M_deg mu steps timespan_days
    = Ok ps ->
  In p ps -> exists E : R, position_of E = Ok p.
Proof.
  unfold kepler_to_cartesian.
  destruct (mean_motion a mu) as [n | err]; cbn [bind]; [| discriminate].
  intros Hloop Hp.
  destruct (orbit_loop_In n _ _ _ _ Hloop Hp) as [[] | (j & _ & Hs)].
  now apply orbit_sample_anomaly with n j.
Qed.

End TrajectoryProperties.

(** X5: every position of a returned trajectory lies between the perihelion
    distance [a (1 - e)] and the aphelion distance [a (1 + e)] from the
    Sun (in km), for an eccentricity in [[0,1]]; on a circular orbit the
    distance is the semi-major axis. *)
Theorem trajectory_between_apsides
    (a e i_deg omega_deg w_deg M_deg mu : R) (steps : Z) (timespan_days : R)
    (ps : list Position) (p : Position) :
  0 <= e <= 1 ->
  kepler_to_cartesian a e i_deg omega_deg w_deg M_deg mu steps timespan_days
    = Ok ps ->
  In p ps ->
  (a_km a * (1 - e)) ^ 2 <= distance2 p <= (a_km a * (1 + e)) ^ 2 /\
  (e = 0 -> distance2 p = a_km a ^ 2).
Proof.
  intros He Hps Hp.
  destruct (trajectory_anomaly _ _ _ _ _ _ _ _ _ _ _ Hps Hp) as (E & HE).
  rewrite (position_of_anomaly_distance _ _ _ _ _ _ _ HE).
  pose proof (COS_bound E) as [Hc0 Hc1].
  assert (Hlo : 0 <= 1 - e) by lra.
  assert (H1 : 1 - e <= 1 - e * cos E) by nra.
  assert (H2 : 1 - e * cos E <= 1 + e) by nra.
  rewrite !Rpow_mult_distr.
  pose proof (pow2_ge_0 (a_km a)) as Ha2.
  assert (H3 : (1 - e) ^ 2 <= (1 - e * cos E) ^ 2) by nra.
  assert (H4 : (1 - e * cos E) ^ 2 <= (1 + e) ^ 2) by nra.
  split; [split; nra |].
  intros ->. ring.
Qed.

Lemma position_of_anomaly_latitude
    (a e i_deg omega_deg w_deg E : R) (p : Position) :
  position_of_anomaly a e i_deg omega_deg w_deg E = Ok p ->
  p.(z) ^ 2 <= sin (math_radians i_deg) ^ 2 * distance2 p.
Proof.
  intros HE. rewrite (position_of_anomaly_distance _ _ _ _ _ _ _ HE).
  revert HE. unfold position_of_anomaly.
  destruct (math_sqrt (1 + e)) as [s1 | err]; cbn [bind]; [| discriminate].
  destruct (math_sqrt (1 - e)) as [s2 | err]; cbn [bind]; [| discriminate].
  intros H. injection H as <-. cbn [z].
  set (nu := 2 * math_atan2 (s1 * sin (E / 2)) (s2 * cos (E / 2))).
  set (r := a_km a * (1 - e * cos E)).
  pose proof (sin2_cos2 nu) as Hnu.
  pose proof (sin2_cos2 (math_radians w_deg)) as Hw.
  unfold Rsqr in *.
  generalize dependent (sin nu). generalize dependent (cos nu).
  generalize dependent (sin (math_radians w_deg)).
  generalize dependent (cos (math_radians w_deg)).
  generalize (sin (math_radians i_deg)) (cos (math_radians i_deg)).
  clearbody r. clear nu.
  intros si ci cw sw Hw cn sn Hn.
  assert (Hy : (sw * cn + cw * sn) ^ 2 <= 1).
  { assert (Hid : (sw * cn + cw * sn) ^ 2 + (cw * cn - sw * sn) ^ 2
                  = (sw * sw + cw * cw) * (sn * sn + cn * cn)) by ring.
    rewrite Hw, Hn in Hid. pose proof (pow2_ge_0 (cw * cn - sw * sn)). lra. }
  replace ((si * (sw * (r * cn) + cw * (r * sn)) + ci * 0) ^ 2)
    with ((si * r) ^ 2 * (sw * cn + cw * sn) ^ 2) by ring.
  replace (si ^ 2 * r ^ 2) with ((si * r) ^ 2) by ring.
  pose proof (pow2_ge_0 (si * r)). nra.
Qed.

(** X6: a position of a returned trajectory is never further from the
    reference plane than the inclination allows,
    [z^2 <= sin(i)^2 * distance^2]; with an inclination of 0 every [z]
    is 0. *)
Theorem trajectory_latitude
    (a e i_deg omega_deg w_deg M_deg mu : R) (steps : Z) (timespan_days : R)
    (ps : list Position) (p : Position) :
  kepler_to_cartesian a e i_deg omega_deg w_deg M_deg mu steps timespan_days
    = Ok ps ->
  In p ps ->
  p.(z) ^ 2 <= sin (math_radians i_deg) ^ 2 * distance2 p /\
  (i_deg = 0 -> p.(z) = 0).
Proof.
  intros Hps Hp.
  destruct (trajectory_anomaly _ _ _ _ _ _ _ _ _ _ _ Hps Hp) as (E & HE).
  pose proof (position_of_anomaly_latitude _ _ _ _ _ _ _ HE) as Hz.
  split; [exact Hz |].
  intros ->. unfold math_radians in Hz.
  rewrite Rmult_0_l, sin_0 in Hz.
  pose proof (pow2_ge_0 (z p)) as Hz0.
  assert (Hz2 : z p ^ 2 = 0) by lra.
  apply Rmult_integral in Hz2. destruct Hz2 as [H | H]; [exact H |].
  rewrite Rmult_1_r in H. exact H.
Qed.









(** X10: an orbit with the opposite inclination is the mirror image in the
    reference plane: the same [x] and [y], the opposite [z]. *)
Theorem position_at_mirror (a e i_deg omega_deg w_deg M_deg n t : R) :
  position_at a e (- i_deg) omega_deg w_deg M_deg n t =
    p <- position_at a e i_deg omega_deg w_deg M_deg n t ;;
    Ok (mkPosition p.(x) p.(y) (- p.(z))).
Proof.
  unfold position_at.
  destruct (eccentric_anomaly_at e M_deg n t) as [E | err]; cbn [bind];
    [| reflexivity].
  unfold position_of_anomaly.
  destruct (math_sqrt (1 + e)) as [s1 | err]; cbn [bind]; [| reflexivity].
  destruct (math_sqrt (1 - e)) as [s2 | err]; cbn [bind]; [| reflexivity].
  cbn [x y z].
  replace (math_radians (- i_deg)) with (- math_radians i_deg)
    by (unfold math_radians; ring).
  rewrite sin_neg, cos_neg.
  f_equal. f_equal; ring.
Qed.

(** ** Scaling and symmetry of the impact estimate *)


(** For a non-negative energy the four metrics in closed form. *)
Lemma compute_impact_effects_real (d rho v ang c : R) :
  0 <= d -> 0 <= rho ->
  let ke := 0.5 * (4 / 3 * PI * (d / 2) ^ 3 * rho)
            * (v * sin (math_radians ang)) ^ 2 in
  compute_impact_effects d rho v ang c =
    Ok (mkImpactEffects ke (ke / 4.184e9 / 1e6)
          (Float (c * sqrt (sqrt ke) / 1000))
          (if Rlt_dec 0 ke then (ln ke / ln 10 - 4.8) / 1.5 else 0)).
Proof.
  intros Hd Hrho ke. rewrite compute_impact_effects_unfold. cbv zeta. fold ke.
  assert (Hke : 0 <= ke) by (apply kinetic_energy_nonneg; assumption).
  rewrite float_pow_quarter_nonneg by exact Hke. cbn [bind float_mul].
  rewrite number_div_Ok by lra. reflexivity.
Qed.



(** X13: a vertical impact (90 degrees) uses the whole velocity,
    [E = 0.5 m v^2], and no other angle gives more energy. *)
Theorem compute_impact_effects_vertical_is_maximal (d rho v ang c : R) :
  0 <= d -> 0 <= rho ->
  exists r r90 : ImpactEffects,
    compute_impact_effects d rho v ang c = Ok r /\
    compute_impact_effects d rho v 90 c = Ok r90 /\
    r90.(kinetic_energy_joules) = 0.5 * (4 / 3 * PI * (d / 2) ^ 3 * rho) * v ^ 2 /\
    r.(kinetic_energy_joules) <= r90.(kinetic_energy_joules) /\
    r.(energy_megatons_tnt) <= r90.(energy_megatons_tnt).
Proof.
  intros Hd Hrho.
  rewrite !compute_impact_effects_real by assumption. cbv zeta.
  do 2 eexists. split; [reflexivity |]. split; [reflexivity |].
  cbn [kinetic_energy_joules energy_megatons_tnt].
  replace (math_radians 90) with (PI / 2) by (unfold math_radians; field).
  rewrite sin_PI2.
  pose proof (SIN_bound (math_radians ang)) as [Hs0 Hs1].
  set (s := sin (math_radians ang)) in *.
  assert (Hm : 0 <= 0.5 * (4 / 3 * PI * (d / 2) ^ 3 * rho)).
  { pose proof (kinetic_energy_nonneg d rho 1 1 Hd Hrho) as H.
    replace ((1 * 1) ^ 2) with 1 in H by ring. lra. }
  assert (Hsq : (v * s) ^ 2 <= (v * 1) ^ 2).
  { replace ((v * s) ^ 2) with (v ^ 2 * s ^ 2) by ring.
    replace ((v * 1) ^ 2) with (v ^ 2 * 1) by ring.
    pose proof (pow2_ge_0 v). assert (s ^ 2 <= 1) by nra. nra. }
  assert (Hle : 0.5 * (4 / 3 * PI * (d / 2) ^ 3 * rho) * (v * s) ^ 2
                <= 0.5 * (4 / 3 * PI * (d / 2) ^ 3 * rho) * (v * 1) ^ 2)
    by (apply Rmult_le_compat_l; assumption).
  split; [ring |]. split; [exact Hle |].
  unfold Rdiv. apply Rmult_le_compat_r; [lra |].
  apply Rmult_le_compat_r; [lra | exact Hle].
Qed.

(** X14: the energy and its TNT equivalent grow with the square of the
    velocity, the crater diameter with its square root: multiplying the
    velocity by [k >= 0] multiplies them by [k^2], [k^2] and [sqrt k]. *)
Theorem compute_impact_effects_velocity_scaling (d rho v ang c k : R) :
  0 <= d -> 0 <= rho -> 0 <= k ->
  exists (r1 r2 : ImpactEffects) (cr1 cr2 : R),
    compute_impact_effects d rho v ang c = Ok r1 /\
    compute_impact_effects d rho (k * v) ang c = Ok r2 /\
    r2.(kinetic_energy_joules) = k ^ 2 * r1.(kinetic_energy_joules) /\
    r2.(energy_megatons_tnt) = k ^ 2 * r1.(energy_megatons_tnt) /\
    r1.(crater_diameter_km) = Float cr1 /\
    r2.(crater_diameter_km) = Float cr2 /\
    cr2 = sqrt k * cr1.
Proof.
  intros Hd Hrho Hk.
  rewrite !compute_impact_effects_real by assumption. cbv zeta.
  set (s := sin (math_radians ang)).
  set (m := 0.5 * (4 / 3 * PI * (d / 2) ^ 3 * rho)).
  assert (Hke : 0 <= m * (v * s) ^ 2)
    by (apply kinetic_energy_nonneg; assumption).
  assert (Hk2 : m * (k * v * s) ^ 2 = k ^ 2 * (m * (v * s) ^ 2)) by ring.
  do 4 eexists. split; [reflexivity |]. split; [reflexivity |].
  cbn [kinetic_energy_joules energy_megatons_tnt crater_diameter_km].
  split; [exact Hk2 |]. split; [rewrite Hk2; field; lra |].
  split; [reflexivity |]. split; [reflexivity |].
  rewrite Hk2.
  rewrite sqrt_mult by (try apply pow2_ge_0; exact Hke).
  rewrite sqrt_pow2 by exact Hk.
  rewrite sqrt_mult by (try apply sqrt_pos; exact Hk).
  field.
Qed.

Lemma ln_10_pos : 0 < ln 10.
Proof. rewrite <- ln_1. apply ln_increasing; lra. Qed.

(** X15: the energy grows with the cube of the diameter; for an impact
    with energy, multiplying the diameter by [k > 0] adds
    [2 log10 k] to the seismic magnitude (2 for a tenfold diameter). *)
Theorem compute_impact_effects_diameter_scaling (d rho v ang c k : R) :
  0 < d -> 0 < rho -> v * sin (math_radians ang) <> 0 -> 0 < k ->
  exists r1 r2 : ImpactEffects,
    compute_impact_effects d rho v ang c = Ok r1 /\
    compute_impact_effects (k * d) rho v ang c = Ok r2 /\
    r2.(kinetic_energy_joules) = k ^ 3 * r1.(kinetic_energy_joules) /\
    r2.(seismic_magnitude) = r1.(seismic_magnitude) + 2 * (ln k / ln 10).
Proof.
  intros Hd Hrho Hv Hk.
  assert (Hkd : 0 <= k * d) by nra.
  rewrite !compute_impact_effects_real by lra. cbv zeta.
  set (s := sin (math_radians ang)) in *.
  set (ke := 0.5 * (4 / 3 * PI * (d / 2) ^ 3 * rho) * (v * s) ^ 2).
  assert (Hke : 0 < ke).
  { unfold ke. pose proof PI_RGT_0.
    assert (0 < (d / 2) ^ 3) by (apply pow_lt; lra).
    assert (0 < (v * s) ^ 2).
    { destruct (pow2_ge_0 (v * s)) as [Hgt | Heq]; [exact Hgt |].
      symmetry in Heq. apply Rmult_integral in Heq.
      rewrite Rmult_1_r in Heq. destruct Heq; contradiction. }
    assert (0 < 4 / 3 * PI * (d / 2) ^ 3 * rho).
    { apply Rmult_lt_0_compat; [| exact Hrho].
      apply Rmult_lt_0_compat; [| assumption].
      lra. }
    apply Rmult_lt_0_compat; [| assumption]. lra. }
  assert (Hk3 : 0.5 * (4 / 3 * PI * (k * d / 2) ^ 3 * rho) * (v * s) ^ 2
                = k ^ 3 * ke) by (unfold ke; field).
  assert (Hk3pos : 0 < k ^ 3) by (apply pow_lt; exact Hk).
  do 2 eexists. split; [reflexivity |]. split; [reflexivity |].
  cbn [kinetic_energy_joules seismic_magnitude].
  split; [exact Hk3 |].
  rewrite Hk3.
  destruct (Rlt_dec 0 (k ^ 3 * ke)) as [_ | H]; [| nra].
  destruct (Rlt_dec 0 ke) as [_ | H]; [| lra].
  rewrite ln_mult, ln_pow by assumption. cbn [INR].
  pose proof ln_10_pos as HL.
  generalize dependent (ln 10). generalize (ln k) (ln ke).
  intros lk lke L HL.
  replace (((1 + 1 + 1) * lk + lke) / L) with (3 * (lk / L) + lke / L)
    by (field; lra).
  lra.
Qed.

(** ** meteorMadness.py against app.py *)

(** X16: [calculate_mass_kgs] depends on the two diameters only through
    their mean [D]: it is the mass [density * pi/6 * D^3] of a sphere of
    diameter [D] (in metres), the same when the two diameters are
    exchanged, and multiplied by [k^3] when both are multiplied by [k]. *)
Theorem calculate_mass_kgs_sphere (d_min_km d_max_km density k : R) :
  MeteorMadness.calculate_mass_kgs d_min_km d_max_km density
    = density * (PI / 6) * (1000 * ((d_min_km + d_max_km) / 2)) ^ 3 /\
  MeteorMadness.calculate_mass_kgs d_max_km d_min_km density
    = MeteorMadness.calculate_mass_kgs d_min_km d_max_km density /\
  MeteorMadness.calculate_mass_kgs (k * d_min_km) (k * d_max_km) density
    = k ^ 3 * MeteorMadness.calculate_mass_kgs d_min_km d_max_km density.
Proof.
  unfold MeteorMadness.calculate_mass_kgs. cbv zeta.
  split; [field | split; field].
Qed.

(** X17: for a non-negative density and diameters of non-negative sum the
    mass is non-negative, and it does not decrease when the sum of the
    diameters grows. *)
Theorem calculate_mass_kgs_monotone
    (d_min_km d_max_km d_min_km' d_max_km' density : R) :
  0 <= density ->
  0 <= d_min_km + d_max_km ->
  d_min_km + d_max_km <= d_min_km' + d_max_km' ->
  0 <= MeteorMadness.calculate_mass_kgs d_min_km d_max_km density
    <= MeteorMadness.calculate_mass_kgs d_min_km' d_max_km' density.
Proof.
  intros Hrho H0 Hle.
  unfold MeteorMadness.calculate_mass_kgs. cbv zeta.
  pose proof PI_RGT_0 as Hpi.
  set (r := (d_min_km + d_max_km) / 2 * 1000 / 2).
  set (r' := (d_min_km' + d_max_km') / 2 * 1000 / 2).
  assert (Hr : 0 <= r) by (unfold r; lra).
  assert (Hrr : r <= r') by (unfold r, r'; lra).
  assert (Hr3 : 0 <= r ^ 3) by (apply pow_le; exact Hr).
  assert (Hr3' : r ^ 3 <= r' ^ 3) by (apply pow_incr; lra).
  assert (Hv : 0 <= 4 / 3 * PI * r ^ 3).
  { apply Rmult_le_pos; [lra | exact Hr3]. }
  assert (Hv' : 4 / 3 * PI * r ^ 3 <= 4 / 3 * PI * r' ^ 3).
  { apply Rmult_le_compat_l; [lra | exact Hr3']. }
  split.
  - apply Rmult_le_pos; assumption.
  - apply Rmult_le_compat_l; assumption.
Qed.

(** X18: the two files agree on the energy: the kinetic energy
    [compute_impact_effects] reports for a sphere whose diameter is the
    mean of the two catalogue diameters (km, converted to metres) is
    [kinetic_energy] of [calculate_mass_kgs] at the vertical velocity. *)
Theorem impact_energy_of_catalogue_mass
    (d_min_km d_max_km density v ang c : R) :
  exists r : ImpactEffects,
    compute_impact_effects (1000 * ((d_min_km + d_max_km) / 2)) density v ang c
      = Ok r /\
    r.(kinetic_energy_joules) =
      MeteorMadness.kinetic_energy
        (MeteorMadness.calculate_mass_kgs d_min_km d_max_km density)
        (v * sin (math_radians ang)).
Proof.
  destruct (crater_real_iff (1000 * ((d_min_km + d_max_km) / 2)) density v
              ang c) as (r & Hr & _).
  exists r. split; [exact Hr |].
  rewrite compute_impact_effects_unfold in Hr. cbv zeta in Hr.
  destruct (float_pow _ 0.25) as [p | err]; cbn [bind] in Hr;
    [| discriminate].
  destruct (number_div _ 1000) as [cr | err]; cbn [bind] in Hr;
    [| discriminate].
  injection Hr as <-. cbn [kinetic_energy_joules].
  unfold MeteorMadness.kinetic_energy, MeteorMadness.calculate_mass_kgs.
  cbv zeta. field.
Qed.

(** X19: the two files agree on the TNT equivalent: [tnt_equivalents], in
    tons, of the kinetic energy is a million times the
    [energy_megatons_tnt] that [compute_impact_effects] reports. *)
Theorem tnt_tons_of_megatons (d rho v ang c : R) :
  exists r : ImpactEffects,
    compute_impact_effects d rho v ang c = Ok r /\
    MeteorMadness.tnt_equivalents r.(kinetic_energy_joules)
      = 1000000 * r.(energy_megatons_tnt).
Proof.
  destruct (crater_real_iff d rho v ang c) as (r & Hr & _).
  exists r. split; [exact Hr |].
  rewrite compute_impact_effects_unfold in Hr. cbv zeta in Hr.
  destruct (float_pow _ 0.25) as [p | err]; cbn [bind] in Hr;
    [| discriminate].
  destruct (number_div _ 1000) as [cr | err]; cbn [bind] in Hr;
    [| discriminate].
  injection Hr as <-. cbn [kinetic_energy_joules energy_megatons_tnt].
  unfold MeteorMadness.tnt_equivalents, MeteorMadness.J_PER_GRAM_TNT.
  lra.
Qed.

(** ** The simulation request *)

Lemma trunc_IZR (k : Z) : trunc (IZR k) = k.
Proof.
  unfold trunc. destruct (Rle_dec 0 (IZR k)) as [Hk | Hk].
  - symmetry. apply Int_part_spec. lra.
  - rewrite <- opp_IZR.
    replace (Int_part (IZR (- k))) with (- k)%Z; [lia |].
    apply Int_part_spec. lra.
Qed.

(** X20: a request with a positive semi-major axis, an eccentricity in
    [[0,1)], at least two steps and a non-negative diameter and density
    (given or by default) is answered: as many positions as
    [int(simulation_steps)], a non-negative energy and a real crater
    diameter. *)
Theorem simulate_returns (orbit_data : OrbitData) (payload : SimulationPayload) :
  0 < orbit_data.(semi_major_axis_au) ->
  0 <= orbit_data.(eccentricity) < 1 ->
  (2 <= trunc (payload_get payload.(simulation_steps) 200%R))%Z ->
  0 <= payload_get payload.(projectile_diameter_m) 10.0 ->
  0 <= payload_get payload.(projectile_density) 3000.0 ->
  exists (positions : list Position) (impact_results : ImpactEffects),
    simulate orbit_data payload = Ok (positions, impact_results) /\
    length positions
      = Z.to_nat (trunc (payload_get payload.(simulation_steps) 200)) /\
    0 <= impact_results.(kinetic_energy_joules) /\
    is_float impact_results.(crater_diameter_km).
Proof.
  intros Ha He Hsteps Hd Hrho. unfold simulate. cbv zeta.
  unfold kepler_to_cartesian.
  rewrite mean_motion_Ok by (try assumption; unfold default_mu; lra).
  cbn [bind].
  destruct (orbit_loop_returns
              orbit_data.(semi_major_axis_au) orbit_data.(eccentricity)
              orbit_data.(inclination_deg)
              orbit_data.(ascending_node_longitude_deg)
              orbit_data.(argument_of_periapsis_deg)
              orbit_data.(mean_anomaly_deg)
              (trunc (payload_get payload.(simulation_steps) 200))
              (payload_get payload.(payload_timespan_days) 365.25)
              (sqrt (default_mu / a_km orbit_data.(semi_major_axis_au) ^ 3)))
    as (ps & -> & Hlen & _); [lra | lia |].
  cbn [bind].
  rewrite compute_impact_effects_real by assumption. cbv zeta. cbn [bind].
  do 2 eexists. split; [reflexivity |]. split; [exact Hlen |].
  cbn [kinetic_energy_joules crater_diameter_km is_float].
  split; [| exact I].
  apply kinetic_energy_nonneg; assumption.
Qed.

(** X21: an orbit whose semi-major axis is 0, the value the handler fills
    in when the catalogue record has none, makes the request fail with
    [ZeroDivisionError], whatever the payload. *)
Theorem simulate_zero_axis (orbit_data : OrbitData) (payload : SimulationPayload) :
  orbit_data.(semi_major_axis_au) = 0 ->
  simulate orbit_data payload = Raise ZeroDivisionError.
Proof.
  intros Ha. unfold simulate. cbv zeta. unfold kepler_to_cartesian.
  rewrite Ha, mean_motion_zero_axis. reflexivity.
Qed.

(** ** Edge cases *)

(** X22: a tolerance that is not positive is never met: the solver uses all
    fifty updates and returns the fiftieth iterate. *)
Theorem solve_keplers_equation_nonpositive_tolerance (e M tol : R) :
  -1 < e < 1 -> tol <= 0 ->
  _solve_keplers_equation e M tol = Ok (newton_iter e M 50 M).
Proof.
  intros He Htol. unfold _solve_keplers_equation.
  destruct (kepler_loop_iter e M tol) with (fuel := 50%nat) (E := M)
    as (k & Hk & _ & Hres & _ & Hlast).
  { intros E'. pose proof (kepler_f_prime_pos e E' He). lra. }
  destruct (Nat.eq_dec k 50) as [-> | Hne]; [exact Hres |].
  assert (Hlt : (k < 50)%nat) by lia. specialize (Hlast Hlt).
  pose proof (Rabs_pos (newton_delta e M (newton_iter e M (pred k) M))).
  lra.
Qed.



(** X24: the mean anomaly handed to the solver differs from [M0 + n t] by a
    whole number of turns, lies strictly between [-2 pi] and [2 pi], and
    has the sign of [M0 + n t]. *)
Theorem mean_anomaly_reduced (M_deg n t : R) :
  exists (m : R) (k : Z),
    mean_anomaly_at M_deg n t = Ok m /\
    m = math_radians M_deg + n * t - IZR k * (2 * PI) /\
    - (2 * PI) < m < 2 * PI /\
    (0 <= math_radians M_deg + n * t -> 0 <= m) /\
    (math_radians M_deg + n * t < 0 -> m <= 0).
Proof.
  unfold mean_anomaly_at.
  pose proof two_PI_pos as Hpi.
  destruct (math_fmod_range (math_radians M_deg + n * t) (2 * PI) Hpi)
    as (m & Hm & Hpos & Hneg).
  exists m, (trunc ((math_radians M_deg + n * t) / (2 * PI))).
  split; [exact Hm |].
  rewrite math_fmod_Ok in Hm by lra. injection Hm as Hm.
  split; [now rewrite <- Hm |].
  destruct (Rle_dec 0 (math_radians M_deg + n * t)) as [H0 | H0].
  - specialize (Hpos H0).
    split; [lra |]. split; intros H; lra.
  - assert (Hlt : math_radians M_deg + n * t < 0) by lra.
    specialize (Hneg Hlt).
    split; [lra |]. split; intros H; lra.
Qed.

(** X25: a negative diameter (or mass) is not rejected: with a vertical
    velocity the energy is negative, the crater diameter is a complex
    number and the magnitude is 0. *)
Theorem compute_impact_effects_negative_diameter (d rho v ang c : R) :
  d < 0 -> 0 < rho -> v * sin (math_radians ang) <> 0 ->
  exists (r : ImpactEffects) (re im : R),
    compute_impact_effects d rho v ang c = Ok r /\
    r.(kinetic_energy_joules) < 0 /\
    r.(energy_megatons_tnt) < 0 /\
    r.(crater_diameter_km) = Complex re im /\
    r.(seismic_magnitude) = 0.
Proof.
  intros Hd Hrho Hv.
  rewrite compute_impact_effects_unfold. cbv zeta.
  set (s := sin (math_radians ang)) in *.
  set (ke := 0.5 * (4 / 3 * PI * (d / 2) ^ 3 * rho) * (v * s) ^ 2).
  assert (Hke : ke < 0).
  { pose proof PI_RGT_0 as Hpi.
    assert (Hcube : 0 < (- d / 2) ^ 3) by (apply pow_lt; lra).
    replace ((- d / 2) ^ 3) with (- (d / 2) ^ 3) in Hcube by field.
    assert (Hsq : 0 < (v * s) ^ 2).
    { destruct (pow2_ge_0 (v * s)) as [Hgt | Heq]; [exact Hgt |].
      symmetry in Heq. apply Rmult_integral in Heq.
      rewrite Rmult_1_r in Heq. destruct Heq; contradiction. }
    assert (Hm : 0 < 0.5 * (4 / 3 * PI * (- (d / 2) ^ 3) * rho)).
    { apply Rmult_lt_0_compat; [lra |].
      apply Rmult_lt_0_compat; [| exact Hrho].
      apply Rmult_lt_0_compat; [lra | exact Hcube]. }
    unfold ke. nra. }
  rewrite float_pow_quarter_neg by exact Hke. cbn [bind float_mul].
  rewrite number_div_Ok by lra. cbn [bind].
  destruct (Rlt_dec 0 ke) as [H | _]; [lra |].
  do 3 eexists. split; [reflexivity |].
  cbn [kinetic_energy_joules energy_megatons_tnt crater_diameter_km
       seismic_magnitude].
  split; [exact Hke |]. split; [lra |]. split; reflexivity.
Qed.

(** X26: the seismic magnitude is not clamped at 0: for an impact with
    energy it is negative exactly when the energy is below
    [10^4.8] joules. *)
Theorem seismic_magnitude_negative (d rho v ang c : R) :
  0 < d -> 0 < rho -> v * sin (math_radians ang) <> 0 ->
  exists r : ImpactEffects,
    compute_impact_effects d rho v ang c = Ok r /\
    0 < r.(kinetic_energy_joules) /\
    (r.(seismic_magnitude) < 0 <->
     r.(kinetic_energy_joules) < Rpower 10 4.8).
Proof.
  intros Hd Hrho Hv.
  rewrite compute_impact_effects_real by lra. cbv zeta.
  set (s := sin (math_radians ang)) in *.
  set (ke := 0.5 * (4 / 3 * PI * (d / 2) ^ 3 * rho) * (v * s) ^ 2).
  assert (Hke : 0 < ke).
  { unfold ke. pose proof PI_RGT_0.
    assert (0 < (d / 2) ^ 3) by (apply pow_lt; lra).
    assert (0 < (v * s) ^ 2).
    { destruct (pow2_ge_0 (v * s)) as [Hgt | Heq]; [exact Hgt |].
      symmetry in Heq. apply Rmult_integral in Heq.
      rewrite Rmult_1_r in Heq. destruct Heq; contradiction. }
    assert (0 < 4 / 3 * PI * (d / 2) ^ 3 * rho).
    { apply Rmult_lt_0_compat; [| exact Hrho].
      apply Rmult_lt_0_compat; [| assumption].
      lra. }
    apply Rmult_lt_0_compat; [| assumption]. lra. }
  eexists. split; [reflexivity |].
  cbn [kinetic_energy_joules seismic_magnitude].
  split; [exact Hke |].
  destruct (Rlt_dec 0 ke) as [_ | H]; [| lra].
  pose proof ln_10_pos as HL.
  assert (Hln : ln (Rpower 10 4.8) = 4.8 * ln 10)
    by (unfold Rpower; apply ln_exp).
  assert (Hq : ln ke / ln 10 < 4.8 <-> ln ke < 4.8 * ln 10).
  { split; intros H.
    - apply Rmult_lt_compat_r with (r := ln 10) in H; [| exact HL].
      replace (ln ke / ln 10 * ln 10) with (ln ke) in H by (field; lra).
      exact H.
    - apply Rmult_lt_reg_r with (ln 10); [exact HL |].
      replace (ln ke / ln 10 * ln 10) with (ln ke) by (field; lra).
      exact H. }
  split; intros H.
  - apply ln_lt_inv; [exact Hke | apply exp_pos |].
    rewrite Hln. apply Hq. lra.
  - assert (Hlt : ln ke < ln (Rpower 10 4.8))
      by (apply ln_increasing; assumption).
    rewrite Hln in Hlt. apply Hq in Hlt. lra.
Qed.

(** ** Instances *)

Lemma default_mu_nonneg : 0 <= default_mu.
Proof. unfold default_mu. lra. Qed.

Lemma sin_radians_90 : sin (math_radians 90) = 1.
Proof.
  replace (math_radians 90) with (PI / 2) by (unfold math_radians; field).
  apply sin_PI2.
Qed.

Lemma converges_at_origin (e : R) :
  exists j : nat,
    (j < 50)%nat /\
    Rabs (newton_delta e 0 (newton_iter e 0 j 0)) < default_tol.
Proof.
  exists 0%nat. split; [lia |]. cbn [newton_iter].
  unfold newton_delta, kepler_f. rewrite sin_0.
  replace (- (0 - e * 0 - 0) / kepler_f_prime e 0) with 0
    by (unfold Rdiv; ring).
  rewrite Rabs_R0. apply default_tol_pos.
Qed.

(** A two-step trajectory and its first position. *)
Lemma two_step_trajectory :
  exists (ps : list Position) (p : Position),
    kepler_to_cartesian 1 (1 / 2) 10 20 30 40 default_mu 2 365.25 = Ok ps /\
    In p ps.
Proof.
  unfold kepler_to_cartesian.
  rewrite mean_motion_Ok by (try apply default_mu_nonneg; lra). cbn [bind].
  destruct (orbit_loop_returns 1 (1 / 2) 10 20 30 40 2 365.25
              (sqrt (default_mu / a_km 1 ^ 3)))
    as (ps & Hps & Hlen & _); [lra | lia |].
  destruct ps as [| p ps]; [discriminate Hlen |].
  exists (p :: ps), p. split; [exact Hps | now left].
Qed.

Lemma solve_keplers_equation_accuracy_witness :
  0 <= 1 / 2 < 1 /\
  exists E Estar : R,
    _solve_keplers_equation (1 / 2) 0 default_tol = Ok E /\
    kepler_f (1 / 2) 0 Estar = 0 /\
    (forall E', kepler_f (1 / 2) 0 E' = 0 -> E' = Estar) /\
    Rabs (E - Estar) <= 2 * (1 / 2) * default_tol / (1 - 1 / 2).
Proof.
  split; [lra |].
  apply (solve_keplers_equation_accuracy (1 / 2) 0);
    [lra | apply converges_at_origin].
Defined.

Lemma solve_keplers_equation_nonpositive_tolerance_witness :
  -1 < 1 / 2 < 1 /\ 0 <= 0 /\
  _solve_keplers_equation (1 / 2) 1 0 = Ok (newton_iter (1 / 2) 1 50 1).
Proof.
  split; [lra |]. split; [lra |].
  apply (solve_keplers_equation_nonpositive_tolerance (1 / 2) 1 0); lra.
Defined.


Lemma trajectory_between_apsides_witness :
  0 <= 1 / 2 <= 1 /\
  exists (ps : list Position) (p : Position),
    kepler_to_cartesian 1 (1 / 2) 10 20 30 40 default_mu 2 365.25 = Ok ps /\
    In p ps /\
    ((a_km 1 * (1 - 1 / 2)) ^ 2 <= distance2 p <= (a_km 1 * (1 + 1 / 2)) ^ 2 /\
     (1 / 2 = 0 -> distance2 p = a_km 1 ^ 2)).
Proof.
  split; [lra |].
  destruct two_step_trajectory as (ps & p & Hps & Hp).
  exists ps, p. split; [exact Hps |]. split; [exact Hp |].
  apply (trajectory_between_apsides 1 (1 / 2) 10 20 30 40 default_mu 2 365.25
           ps p); [lra | exact Hps | exact Hp].
Defined.

Lemma trajectory_latitude_witness :
  exists (ps : list Position) (p : Position),
    kepler_to_cartesian 1 (1 / 2) 10 20 30 40 default_mu 2 365.25 = Ok ps /\
    In p ps /\
    (p.(z) ^ 2 <= sin (math_radians 10) ^ 2 * distance2 p /\
     (10 = 0 -> p.(z) = 0)).
Proof.
  destruct two_step_trajectory as (ps & p & Hps & Hp).
  exists ps, p. split; [exact Hps |]. split; [exact Hp |].
  apply (trajectory_latitude 1 (1 / 2) 10 20 30 40 default_mu 2 365.25 ps p);
    [exact Hps | exact Hp].
Defined.


Lemma compute_impact_effects_vertical_is_maximal_witness :
  0 <= 10 /\ 0 <= 3000 /\
  exists r r90 : ImpactEffects,
    compute_impact_effects 10 3000 20000 45 default_crater_coeff = Ok r /\
    compute_impact_effects 10 3000 20000 90 default_crater_coeff = Ok r90 /\
    r90.(kinetic_energy_joules)
      = 0.5 * (4 / 3 * PI * (10 / 2) ^ 3 * 3000) * 20000 ^ 2 /\
    r.(kinetic_energy_joules) <= r90.(kinetic_energy_joules) /\
    r.(energy_megatons_tnt) <= r90.(energy_megatons_tnt).
Proof.
  split; [lra |]. split; [lra |].
  apply (compute_impact_effects_vertical_is_maximal 10 3000 20000 45
           default_crater_coeff); lra.
Defined.

Lemma compute_impact_effects_velocity_scaling_witness :
  0 <= 10 /\ 0 <= 3000 /\ 0 <= 2 /\
  exists (r1 r2 : ImpactEffects) (cr1 cr2 : R),
    compute_impact_effects 10 3000 20000 45 default_crater_coeff = Ok r1 /\
    compute_impact_effects 10 3000 (2 * 20000) 45 default_crater_coeff
      = Ok r2 /\
    r2.(kinetic_energy_joules) = 2 ^ 2 * r1.(kinetic_energy_joules) /\
    r2.(energy_megatons_tnt) = 2 ^ 2 * r1.(energy_megatons_tnt) /\
    r1.(crater_diameter_km) = Float cr1 /\
    r2.(crater_diameter_km) = Float cr2 /\
    cr2 = sqrt 2 * cr1.
Proof.
  split; [lra |]. split; [lra |]. split; [lra |].
  apply (compute_impact_effects_velocity_scaling 10 3000 20000 45
           default_crater_coeff 2); lra.
Defined.

Lemma compute_impact_effects_diameter_scaling_witness :
  0 < 10 /\ 0 < 3000 /\ 20000 * sin (math_radians 90) <> 0 /\ 0 < 10 /\
  exists r1 r2 : ImpactEffects,
    compute_impact_effects 10 3000 20000 90 default_crater_coeff = Ok r1 /\
    compute_impact_effects (10 * 10) 3000 20000 90 default_crater_coeff
      = Ok r2 /\
    r2.(kinetic_energy_joules) = 10 ^ 3 * r1.(kinetic_energy_joules) /\
    r2.(seismic_magnitude) = r1.(seismic_magnitude) + 2 * (ln 10 / ln 10).
Proof.
  assert (Hv : 20000 * sin (math_radians 90) <> 0)
    by (rewrite sin_radians_90; lra).
  split; [lra |]. split; [lra |]. split; [exact Hv |]. split; [lra |].
  apply (compute_impact_effects_diameter_scaling 10 3000 20000 90
           default_crater_coeff 10); [lra | lra | exact Hv | lra].
Defined.

Lemma compute_impact_effects_negative_diameter_witness :
  -10 < 0 /\ 0 < 3000 /\ 20000 * sin (math_radians 90) <> 0 /\
  exists (r : ImpactEffects) (re im : R),
    compute_impact_effects (-10) 3000 20000 90 default_crater_coeff = Ok r /\
    r.(kinetic_energy_joules) < 0 /\
    r.(energy_megatons_tnt) < 0 /\
    r.(crater_diameter_km) = Complex re im /\
    r.(seismic_magnitude) = 0.
Proof.
  assert (Hv : 20000 * sin (math_radians 90) <> 0)
    by (rewrite sin_radians_90; lra).
  split; [lra |]. split; [lra |]. split; [exact Hv |].
  apply (compute_impact_effects_negative_diameter (-10) 3000 20000 90
           default_crater_coeff); [lra | lra | exact Hv].
Defined.

Lemma seismic_magnitude_negative_witness :
  0 < 10 /\ 0 < 3000 /\ 20000 * sin (math_radians 90) <> 0 /\
  exists r : ImpactEffects,
    compute_impact_effects 10 3000 20000 90 default_crater_coeff = Ok r /\
    0 < r.(kinetic_energy_joules) /\
    (r.(seismic_magnitude) < 0 <->
     r.(kinetic_energy_joules) < Rpower 10 4.8).
Proof.
  assert (Hv : 20000 * sin (math_radians 90) <> 0)
    by (rewrite sin_radians_90; lra).
  split; [lra |]. split; [lra |]. split; [exact Hv |].
  apply (seismic_magnitude_negative 10 3000 20000 90 default_crater_coeff);
    [lra | lra | exact Hv].
Defined.

Lemma calculate_mass_kgs_monotone_witness :
  0 <= MeteorMadness.default_density_kgm3 /\
  0 <= 1 + 2 /\ 1 + 2 <= 2 + 3 /\
  0 <= MeteorMadness.calculate_mass_kgs 1 2 MeteorMadness.default_density_kgm3
    <= MeteorMadness.calculate_mass_kgs 2 3 MeteorMadness.default_density_kgm3.
Proof.
  assert (Hrho : 0 <= MeteorMadness.default_density_kgm3)
    by (unfold MeteorMadness.default_density_kgm3; lra).
  split; [exact Hrho |]. split; [lra |]. split; [lra |].
  apply (calculate_mass_kgs_monotone 1 2 2 3
           MeteorMadness.default_density_kgm3); [exact Hrho | lra | lra].
Defined.

Lemma simulate_returns_witness :
  0 < (mkOrbitData 1 (1 / 2) 10 20 30 40).(semi_major_axis_au) /\
  0 <= (mkOrbitData 1 (1 / 2) 10 20 30 40).(eccentricity) < 1 /\
  (2 <= trunc (payload_get
                 (mkSimulationPayload None None None None None None None)
                   .(simulation_steps) 200%R))%Z /\
  0 <= payload_get
         (mkSimulationPayload None None None None None None None)
           .(projectile_diameter_m) 10.0 /\
  0 <= payload_get
         (mkSimulationPayload None None None None None None None)
           .(projectile_density) 3000.0 /\
  exists (positions : list Position) (impact_results : ImpactEffects),
    simulate (mkOrbitData 1 (1 / 2) 10 20 30 40)
      (mkSimulationPayload None None None None None None None)
      = Ok (positions, impact_results) /\
    length positions
      = Z.to_nat
          (trunc (payload_get
                    (mkSimulationPayload None None None None None None None)
                      .(simulation_steps) 200)) /\
    0 <= impact_results.(kinetic_energy_joules) /\
    is_float impact_results.(crater_diameter_km).
Proof.
  set (orbit_data := mkOrbitData 1 (1 / 2) 10 20 30 40).
  set (payload := mkSimulationPayload None None None None None None None).
  assert (Hsteps : (2 <= trunc (payload_get payload.(simulation_steps) 200%R))%Z).
  { cbn. rewrite trunc_IZR. lia. }
  split; [cbn; lra |]. split; [cbn; lra |]. split; [exact Hsteps |].
  split; [cbn; lra |]. split; [cbn; lra |].
  apply (simulate_returns orbit_data payload);
    [cbn; lra | cbn; lra | exact Hsteps | cbn; lra | cbn; lra].
Defined.

Lemma simulate_zero_axis_witness :
  (mkOrbitData 0 0 0 0 0 0).(semi_major_axis_au) = 0 /\
  simulate (mkOrbitData 0 0 0 0 0 0)
    (mkSimulationPayload None None None None None None None)
    = Raise ZeroDivisionError.
Proof.
  split; [reflexivity |].
  apply (simulate_zero_axis (mkOrbitData 0 0 0 0 0 0)
           (mkSimulationPayload None None None None None None None)).
  reflexivity.
Defined.
